(** * The Xcode project tree explorer (vscode-xcode-project)

    A shallow embedding of [src/utils/xcode-node-provider.ts]: the five node
    classes ([RootNode], [ProjectNode], [GroupNode], [FileNode],
    [BuildFileNode]), their [children], [label], [path] and [sortKey]
    methods, and the provider's [resolveChildren].

    The embedding follows the latest revision of the file (the one with
    [sortKey] and [BuildFileNode]); the earlier two-pass [GroupNode.children]
    is kept in [Module TwoPass].

    Conventions.
    - A JavaScript exception is a [Throw] in the [outcome] monad; a promise
      is settled at once ([Fulfilled] or [Rejected]), since every executor
      in the source runs synchronously to its [resolve] call.
    - [console.warn] appends to an explicit [console] that is threaded
      through the methods that can log.
    - The parsed project (the [xcode-proj] library's object) is seen through
      the accessors the source calls.  Its sections are finite maps from PBX
      object identifiers to records; the build-file section keeps the order
      of [Object.keys].  Indexing a section with anything that is not one of
      its identifiers gives [undefined].
    - File system, parser and the engine's string collation are a [World]
      the methods read.
    - Paths are posix paths, as on the systems Xcode projects live on. *)

From Stdlib Require Import ZArith Lia Ascii String.
From stdpp Require Import base option list gmap strings sorting.

Local Open Scope string_scope.
Local Open Scope list_scope.
Local Open Scope stdpp_scope.

(** ** JavaScript control flow *)

Inductive js_error : Type :=
| FilesystemError (p : string)   (* thrown by [fs]: no such directory/file *)
| ParseError (p : string)        (* thrown by the pbxproj parser *)
| TypeError.                     (* property access on [undefined], bad argument *)

Inductive outcome (A : Type) : Type :=
| Return (a : A)
| Throw (e : js_error).
Arguments Return {A} a.
Arguments Throw {A} e.

#[export] Instance outcome_ret : MRet outcome := λ A a, Return a.
#[export] Instance outcome_bind : MBind outcome := λ A B k m,
  match m with
  | Return a => k a
  | Throw e => Throw e
  end.

(** Reading a property of a value that may be [undefined]. *)
Definition defined {A} (o : option A) : outcome A :=
  match o with
  | Some a => Return a
  | None => Throw TypeError
  end.

Inductive Promise (A : Type) : Type :=
| Fulfilled (a : A)
| Rejected (e : js_error).
Arguments Fulfilled {A} a.
Arguments Rejected {A} e.

(** [new Promise((resolve, reject) => { ...; resolve(v) })]: an exception in
    the executor rejects the promise. *)
Definition new_Promise {A} (executor : outcome A) : Promise A :=
  match executor with
  | Return a => Fulfilled a
  | Throw e => Rejected e
  end.

(** [p.then(f)] for a callback that does not throw. *)
Definition Promise_then {A B} (p : Promise A) (f : A → B) : Promise B :=
  match p with
  | Fulfilled a => Fulfilled (f a)
  | Rejected e => Rejected e
  end.

(** ** Strings *)

(** [s.split(sep)] for a one-character separator. *)
Fixpoint split (sep : ascii) (s : string) : list string :=
  match s with
  | EmptyString => [EmptyString]
  | String c rest =>
      if Ascii.eqb c sep then EmptyString :: split sep rest
      else match split sep rest with
           | seg :: segs => String c seg :: segs
           | [] => [String c EmptyString]
           end
  end.

(** [parts.join(sep)]. *)
Fixpoint join (sep : string) (parts : list string) : string :=
  match parts with
  | [] => ""
  | [p] => p
  | p :: ps => p +:+ sep +:+ join sep ps
  end.

(** The last character of a string, if any. *)
Fixpoint last_char (s : string) : option ascii :=
  match s with
  | EmptyString => None
  | String c EmptyString => Some c
  | String _ rest => last_char rest
  end.

(** ** Node's [path.join] (posix)

    [path] is Node's own module, not part of the repository.  The functions
    below transcribe its posix implementation: [join] glues the non-empty
    arguments with a slash and normalises the result. *)
Module posix.

(** [normalizeArray(parts, allowAboveRoot)]; [res] is kept as a stack, its
    last element first. *)
Fixpoint normalizeArray_loop (parts : list string) (allowAboveRoot : bool)
    (res : list string) : list string :=
  match parts with
  | [] => rev res
  | p :: parts' =>
      if bool_decide (p = "") || bool_decide (p = ".") then
        normalizeArray_loop parts' allowAboveRoot res
      else if bool_decide (p = "..") then
        match res with
        | top :: res' =>
            if bool_decide (top ≠ "..") then
              normalizeArray_loop parts' allowAboveRoot res'
            else if allowAboveRoot then
              normalizeArray_loop parts' allowAboveRoot (".." :: res)
            else normalizeArray_loop parts' allowAboveRoot res
        | [] =>
            if allowAboveRoot then
              normalizeArray_loop parts' allowAboveRoot [".."]
            else normalizeArray_loop parts' allowAboveRoot res
        end
      else normalizeArray_loop parts' allowAboveRoot (p :: res)
  end.

Definition normalizeArray (parts : list string) (allowAboveRoot : bool)
    : list string :=
  normalizeArray_loop parts allowAboveRoot [].

Definition isAbsolute (path : string) : bool :=
  match path with
  | String "/" _ => true
  | _ => false
  end.

Definition normalize (path : string) : string :=
  let isAbs := isAbsolute path in
  let trailingSlash := bool_decide (last_char path = Some "/"%char) in
  let path1 := join "/" (normalizeArray (split "/" path) (negb isAbs)) in
  let path2 := if bool_decide (path1 = "") && negb isAbs then "." else path1 in
  let path3 := if bool_decide (path2 ≠ "") && trailingSlash
               then path2 +:+ "/" else path2 in
  (if isAbs then "/" else "") +:+ path3.

(** The loop of [join] over its arguments. *)
Fixpoint join_loop (args : list string) (path : string) : string :=
  match args with
  | [] => path
  | segment :: args' =>
      if bool_decide (segment ≠ "") then
        if bool_decide (path = "") then join_loop args' (path +:+ segment)
        else join_loop args' (path +:+ "/" +:+ segment)
      else join_loop args' path
  end.

Definition join (args : list string) : string :=
  normalize (join_loop args "").

End posix.

(** ** Regular expressions of the source *)

(** [file.match(/\.xcodeproj$/)] as a boolean: the search tries every start
    position; at a position the literal followed by [$] matches exactly when
    the rest of the input is the literal. *)
Fixpoint match_xcodeproj (file : string) : bool :=
  bool_decide (file = ".xcodeproj")
  || match file with
     | EmptyString => false
     | String _ rest => match_xcodeproj rest
     end.

(** The double quote, character 34. *)
Abbreviation dquote := ("034"%char) (only parsing).

(** [s] between double quotes. *)
Definition quoted (s : string) : string :=
  String dquote (s +:+ String dquote EmptyString).

(** [s.replace(re, '')] for the global regular expression [re] of
    [FileNode.path], whose two alternatives are a double quote at the start
    of the input and a double quote at its end: a left-to-right scan that
    drops a double quote standing at index 0 or at the last index.
    [at_start] tells whether the scan is at index 0. *)
Fixpoint replace_quotes_from (at_start : bool) (s : string) : string :=
  match s with
  | EmptyString => EmptyString
  | String c rest =>
      if Ascii.eqb c dquote && (at_start || bool_decide (rest = ""))
      then replace_quotes_from false rest
      else String c (replace_quotes_from false rest)
  end.

Definition replace_quotes (s : string) : string := replace_quotes_from true s.

(** ** The parsed project, as the source reads it *)

(** An entry of a group's [children] array: [{ value, comment }]. *)
Record Child : Type := {
  value : string;
  comment : option string;
}.

(** A [PBXGroup] record; [path] is absent for a virtual group. *)
Record PBXGroup : Type := {
  group_children : list Child;
  group_path : option string;
}.

Record PBXFileReference : Type := {
  ref_path : string;
}.

Record PBXBuildFile : Type := {
  fileRef : option string;
  fileRef_comment : option string;
}.

Record PBXProject : Type := {
  mainGroup : string;
}.

(** The object [xcode.project(...)] holds after [parseSync()]. *)
Record XcodeProject : Type := {
  rootObject : string;                                  (* hash.project.rootObject *)
  pbxProjectSection : gmap string PBXProject;
  pbxGroupSection : gmap string PBXGroup;
  pbxFileReferenceSection : gmap string PBXFileReference;
  pbxBuildFileSection : list (string * PBXBuildFile);   (* in key order *)
}.

Definition getPBXGroupByKey (proj : XcodeProject) (key : string) : option PBXGroup :=
  pbxGroupSection proj !! key.

(** [Object.keys(sec)] and [sec[key]] for the build-file section. *)
Definition Object_keys {V} (sec : list (string * V)) : list string := sec.*1.

Fixpoint Object_get {V} (sec : list (string * V)) (key : string) : option V :=
  match sec with
  | [] => None
  | (k, v) :: sec' => if bool_decide (k = key) then Some v else Object_get sec' key
  end.

(** Truthiness of a string that may be [undefined]. *)
Definition truthy (s : option string) : bool :=
  match s with
  | Some s => bool_decide (s ≠ "")
  | None => false
  end.

(** [`${s}`] for a string that may be [undefined]. *)
Definition template (s : option string) : string := default "undefined" s.

(** ** Nodes *)

Inductive XcodeNode : Type :=
| RootNode (rootPath : string)
| ProjectNode (file : string) (parent : XcodeNode)
| GroupNode (project : XcodeProject) (data : Child) (parent : XcodeNode)
| BuildFileNode (project : XcodeProject) (data : PBXBuildFile) (parent : XcodeNode)
| FileNode (project : XcodeProject) (data : Child) (parent : XcodeNode).

Definition hasChildren (n : XcodeNode) : bool :=
  match n with
  | RootNode _ | ProjectNode _ _ | GroupNode _ _ _ => true
  | BuildFileNode _ _ _ | FileNode _ _ _ => false
  end.

(** [null] is [None]. *)
Definition clickCommand (n : XcodeNode) : option string :=
  match n with
  | FileNode _ _ _ => Some "extension.openXcodeFileNode"
  | _ => None
  end.

Definition label (n : XcodeNode) : option string :=
  match n with
  | RootNode _ => Some "Xcode"
  | ProjectNode file _ => Some file
  | GroupNode _ data _ => comment data
  | BuildFileNode _ data _ => fileRef_comment data
  | FileNode _ data _ => comment data
  end.

(** The two settings the provider reads from the workspace configuration. *)
Record Configuration : Type := {
  sortAlphabetically : bool;     (* xcodeProject.sortAlphabetically *)
  directoriesFirst : bool;       (* xcodeProject.directoriesFirst *)
}.

Definition sortKey (config : Configuration) (n : XcodeNode) : string :=
  match n with
  | GroupNode _ _ _ =>
      let prefix := if directoriesFirst config then "000" else "001" in
      prefix +:+ "-" +:+ template (label n)
  | _ => "001-" +:+ template (label n)
  end.

Fixpoint path (n : XcodeNode) : outcome string :=
  match n with
  | RootNode rootPath => Return rootPath
  | ProjectNode _ parent =>
      parentPath ← path parent;
      Return (posix.join [parentPath])
  | GroupNode project data parent =>
      parentPath ← path parent;
      group ← defined (getPBXGroupByKey project (value data));
      let grouPath := group_path group in
      if truthy grouPath
      then Return (posix.join [parentPath; default "" grouPath])
      else Return parentPath
  | BuildFileNode _ data parent =>
      parentPath ← path parent;
      (* [path.join] throws a TypeError on an argument that is no string *)
      name ← defined (fileRef_comment data);
      Return (posix.join [parentPath; name])
  | FileNode project data parent =>
      ref ← defined (pbxFileReferenceSection project !! value data);
      let fileName := replace_quotes (ref_path ref) in
      parentPath ← path parent;
      Return (posix.join [parentPath; fileName])
  end.

(** ** The world outside: file system, parser, console *)

Record World : Type := {
  (* the directories [fs.readdirSync] can read, with their entries *)
  fs_dirs : gmap string (list string);
  (* the files the parser can read; [None] is a file it cannot parse *)
  fs_pbxproj : gmap string (option XcodeProject);
  (* the engine's [String.prototype.localeCompare]: [a.localeCompare(b)]
     under the collation of the locale the host runs in *)
  localeCompare : string → string → Z;
}.

Definition readdirSync (w : World) (dir : string) : outcome (list string) :=
  match fs_dirs w !! dir with
  | Some entries => Return entries
  | None => Throw (FilesystemError dir)
  end.

(** [const proj = xcode.project(file); proj.parseSync()]. *)
Definition parseSync (w : World) (file : string) : outcome XcodeProject :=
  match fs_pbxproj w !! file with
  | Some (Some proj) => Return proj
  | Some None => Throw (ParseError file)
  | None => Throw (FilesystemError file)
  end.

(** What [console.warn] is called with: [`Unknown child ${JSON.stringify(child)}`]. *)
Inductive log_entry : Type :=
| Unknown_child (child : Child).

Definition console : Type := list log_entry.

(** Code that may write to the console. *)
Definition Logging (A : Type) : Type := console → A * console.

#[export] Instance Logging_ret : MRet Logging := λ A a out, (a, out).
#[export] Instance Logging_bind : MBind Logging := λ A B k m out,
  let '(a, out') := m out in k a out'.

Definition console_warn (e : log_entry) : Logging unit :=
  λ out, (tt, out ++ [e]).

(** [array.map(f)] for a callback that may log. *)
Fixpoint Array_map {A B} (f : A → Logging B) (array : list A) : Logging (list B) :=
  match array with
  | [] => mret []
  | a :: array' => b ← f a; bs ← Array_map f array'; mret (b :: bs)
  end.

(** ** [children()] *)

(** What a [children()] method hands back: an array, a thenable or [null]. *)
Inductive Children : Type :=
| Array (nodes : list XcodeNode)
| Thenable (p : Promise (list XcodeNode))
| Null.

(** [this.parent.rootPath], which only a [RootNode] has. *)
Definition rootPath_of (n : XcodeNode) : option string :=
  match n with
  | RootNode rootPath => Some rootPath
  | _ => None
  end.

Definition RootNode_children (w : World) (this : XcodeNode) (rootPath : string)
    : outcome (list XcodeNode) :=
  entries ← readdirSync w rootPath;
  Return ((λ file, ProjectNode file this)
            <$> filter (λ file : string, match_xcodeproj file) (entries : list string)).

Definition ProjectNode_children (w : World) (this : XcodeNode) (file : string)
    (parent : XcodeNode) : Promise (list XcodeNode) :=
  new_Promise (
    rootPath ← defined (rootPath_of parent);
    proj ← parseSync w (posix.join [rootPath; file; "project.pbxproj"]);
    let projSection := pbxProjectSection proj in
    root ← defined (projSection !! rootObject proj);
    group ← defined (getPBXGroupByKey proj (mainGroup root));
    Return ((λ child, GroupNode proj child this) <$> group_children group)).

(** The callback [GroupNode.children] maps over the group's child entries;
    [None] is the [undefined] it returns after the warning.  [bfileKey] is
    the first key, in the order of [Object.keys], of a build-file record
    whose [fileRef] is the identifier. *)
Definition GroupNode_child (this : XcodeNode) (project : XcodeProject)
    (bfileSec : list (string * PBXBuildFile)) (bfileKeys : list string)
    (child : Child) : Logging (option XcodeNode) :=
  let value := value child in
  if getPBXGroupByKey project value is Some _ then
    mret (Some (GroupNode project child this))
  else if pbxFileReferenceSection project !! value is Some _ then
    mret (Some (FileNode project child this))
  else
    let bfileKey :=
      List.find (λ key, bool_decide (Object_get bfileSec key ≫= fileRef = Some value))
                bfileKeys in
    let bfile := bfileKey ≫= Object_get bfileSec in
    match bfile with
    | Some bfile => mret (Some (BuildFileNode project bfile this))
    | None => _ ← console_warn (Unknown_child child); mret None
    end.

Definition GroupNode_children (this : XcodeNode) (project : XcodeProject)
    (data : Child) : Logging (Promise (list XcodeNode)) :=
  executor ← (
    let bfileSec := pbxBuildFileSection project in
    let bfileKeys := Object_keys bfileSec in
    match defined (getPBXGroupByKey project (value data)) with
    | Throw e => mret (Throw e)
    | Return group =>
        nodes ← Array_map (GroupNode_child this project bfileSec bfileKeys)
                          (group_children group);
        mret (Return (omap id nodes))
    end);
  mret (new_Promise executor).

Definition children (w : World) (n : XcodeNode) : Logging (outcome Children) :=
  match n with
  | RootNode rootPath =>
      mret (nodes ← RootNode_children w n rootPath; Return (Array nodes))
  | ProjectNode file parent =>
      mret (Return (Thenable (ProjectNode_children w n file parent)))
  | GroupNode project data _ =>
      p ← GroupNode_children n project data;
      mret (Return (Thenable p))
  | BuildFileNode _ _ _ | FileNode _ _ _ => mret (Return Null)
  end.

(** The earlier revision of [GroupNode.children]: two passes over the child
    entries, sub-groups first and file references second, no build files. *)
Module TwoPass.

Definition GroupNode_children (this : XcodeNode) (project : XcodeProject)
    (data : Child) : Promise (list XcodeNode) :=
  new_Promise (
    group ← defined (getPBXGroupByKey project (value data));
    let groups :=
      (λ child, GroupNode project child this)
        <$> List.filter (λ child, bool_decide (is_Some (getPBXGroupByKey project (value child))))
                        (group_children group) in
    let files :=
      (λ child, FileNode project child this)
        <$> List.filter (λ child, bool_decide (is_Some (pbxFileReferenceSection project !! value child)))
                        (group_children group) in
    Return (groups ++ files)).

End TwoPass.

(** ** Sorting *)

(** [array.sort(compareFn)].  The sort is stable; for a consistent
    comparison every stable sort returns the list stable insertion computes
    (lemma [Array_sort_unique] below). *)
Section Array_sort.
Context {A : Type} (compareFn : A → A → Z).

Fixpoint insert_sorted (x : A) (sorted : list A) : list A :=
  match sorted with
  | [] => [x]
  | y :: sorted' =>
      if (compareFn x y <=? 0)%Z then x :: y :: sorted'
      else y :: insert_sorted x sorted'
  end.

Definition Array_sort (array : list A) : list A :=
  foldr insert_sorted [] array.
End Array_sort.

(** ** The provider *)

(** [children.sort((a, b) => a.sortKey().localeCompare(b.sortKey()))], run on
    the array [children()] has just built.  The comparison is the engine's,
    read from the world. *)
Definition sort_children (w : World) (config : Configuration)
    (nodes : list XcodeNode) : list XcodeNode :=
  Array_sort (λ a b, localeCompare w (sortKey config a) (sortKey config b)) nodes.

Definition resolveChildren (config : Configuration) (w : World) (node : XcodeNode)
    : Logging (outcome Children) :=
  children ← children w node;
  if sortAlphabetically config then
    mret (children ← children;
          match children with
          | Array nodes => Return (Array (sort_children w config nodes))
          | Thenable p => Return (Thenable (Promise_then p (sort_children w config)))
          | Null => Throw TypeError
          end)
  else mret children.

Definition provideRootNode (rootPath : string) : XcodeNode := RootNode rootPath.
Definition getLabel (node : XcodeNode) : option string := label node.
Definition getHasChildren (node : XcodeNode) : bool := hasChildren node.
Definition getClickCommand (node : XcodeNode) : option string := clickCommand node.

(** ** Vocabulary of the statements *)

(** What the callback of [GroupNode.children] returns for a child entry, and
    what it writes to the console, when run on its own. *)
Definition resolved (this : XcodeNode) (project : XcodeProject) (child : Child)
    : option XcodeNode :=
  (GroupNode_child this project (pbxBuildFileSection project)
     (Object_keys (pbxBuildFileSection project)) child []).1.

Definition warnings (this : XcodeNode) (project : XcodeProject) (child : Child)
    : console :=
  (GroupNode_child this project (pbxBuildFileSection project)
     (Object_keys (pbxBuildFileSection project)) child []).2.

(** An identifier is cross-referenced by the build-file section when some
    record of the section has it as its [fileRef]. *)
Definition build_file_of (project : XcodeProject) (id : string) (bfile : PBXBuildFile)
    : Prop :=
  ∃ key, Object_get (pbxBuildFileSection project) key = Some bfile
         ∧ fileRef bfile = Some id.

Definition is_GroupNode (n : XcodeNode) : bool :=
  match n with
  | GroupNode _ _ _ => true
  | _ => false
  end.

Definition is_BuildFileNode (n : XcodeNode) : bool :=
  match n with
  | BuildFileNode _ _ _ => true
  | _ => false
  end.

(** [s] ends in [suffix]. *)
Definition ends_with (suffix s : string) : Prop := ∃ start, s = start +:+ suffix.

(** The label as it is spliced into the sort key. *)
Definition label_text (n : XcodeNode) : string := template (label n).

(** Case-sensitive lexicographic order on strings. *)
Definition lex_le (a b : string) : Prop := String.leb a b = true.

(** What the statements about sorting ask of the engine's comparison.  It is
    consistent: any two strings compare one way or the other, and the order
    is transitive. *)
Definition consistent (compare : string → string → Z) : Prop :=
  (∀ a b, (compare a b ≤ 0)%Z ∨ (compare b a ≤ 0)%Z)
  ∧ (∀ a b c, (compare a b ≤ 0)%Z → (compare b c ≤ 0)%Z → (compare a c ≤ 0)%Z).

(** It tells the two bucket prefixes of [sortKey] apart by their digits,
    whatever follows them. *)
Definition buckets_apart (compare : string → string → Z) : Prop :=
  ∀ a b, (0 < compare ("001-" +:+ a) ("000-" +:+ b))%Z.

(** It orders two strings that start with [prefix] as it orders what follows
    the prefix. *)
Definition ignores_prefix (compare : string → string → Z) (prefix : string) : Prop :=
  ∀ a b, (compare (prefix +:+ a) (prefix +:+ b) ≤ 0)%Z ↔ (compare a b ≤ 0)%Z.

(** The order of nodes by sort key, and of strings, under a comparison. *)
Definition key_before (compare : string → string → Z) (config : Configuration)
    (a b : XcodeNode) : Prop :=
  (compare (sortKey config a) (sortKey config b) ≤ 0)%Z.

Definition text_before (compare : string → string → Z) (a b : string) : Prop :=
  (compare a b ≤ 0)%Z.

(** ** A collation for the sample workspaces

    The comparison the sample worlds run with orders strings without regard
    to the case of ASCII letters first and, between strings that differ in
    case only, puts lower case before upper case at the first difference, as
    locale-aware engines do for such strings.  (An engine built without
    locale data compares character codes instead.) *)

Definition fold_case (c : ascii) : ascii :=
  let n := nat_of_ascii c in
  if (65 <=? n)%nat && (n <=? 90)%nat then ascii_of_nat (n + 32) else c.

Fixpoint fold_string (s : string) : string :=
  match s with
  | EmptyString => EmptyString
  | String c rest => String (fold_case c) (fold_string rest)
  end.

Definition collate (a b : string) : Z :=
  match String.compare (fold_string a) (fold_string b) with
  | Lt => -1
  | Gt => 1
  | Eq =>
      match String.compare b a with
      | Lt => -1
      | Eq => 0
      | Gt => 1
      end
  end.

(** ** A sample workspace

    [/repo] holds the bundle [App.xcodeproj] and a bundle [Lib.xcodeproj]
    whose project file does not parse.  The main group of [App] has the
    single child [G1] (path [App]); [G1] lists a file reference that a build
    file refers to as well, two sub-groups, an identifier only the build-file
    section knows, and a dangling one. *)
Module Sample.

Definition G1 : Child := {| value := "G1"; comment := Some "App" |}.
Definition F2 : Child := {| value := "F2"; comment := Some "main.swift" |}.
Definition G2 : Child := {| value := "G2"; comment := Some "Zeta" |}.
Definition B9 : Child := {| value := "B9"; comment := Some "lib.a" |}.
Definition XX : Child := {| value := "XX"; comment := Some "ghost" |}.
Definition G3 : Child := {| value := "G3"; comment := Some "alpha" |}.

Definition App : PBXGroup :=
  {| group_children := [F2; G2; B9; XX; G3]; group_path := Some "App" |}.

Definition main_swift : PBXBuildFile :=
  {| fileRef := Some "F2"; fileRef_comment := Some "main.swift" |}.

Definition lib_a : PBXBuildFile :=
  {| fileRef := Some "B9"; fileRef_comment := Some "lib.a" |}.

Definition project : XcodeProject := {|
  rootObject := "P0";
  pbxProjectSection := {[ "P0" := {| mainGroup := "G0" |} ]};
  pbxGroupSection :=
    {[ "G0" := {| group_children := [G1]; group_path := None |};
       "G1" := App;
       "G2" := {| group_children := []; group_path := Some "" |};
       "G3" := {| group_children := []; group_path := None |} ]};
  pbxFileReferenceSection :=
    {[ "F2" := {| ref_path := quoted "Sources/main.swift" |} ]};
  pbxBuildFileSection := [ ("B0", main_swift); ("B1", lib_a) ];
|}.

Definition world : World := {|
  fs_dirs := {[ "/repo" := ["App.xcodeproj"; "README.md"; "Lib.xcodeproj"; "old.xcodeproj.bak"] ]};
  fs_pbxproj := {[ "/repo/App.xcodeproj/project.pbxproj" := Some project;
                   "/repo/Lib.xcodeproj/project.pbxproj" := None ]};
  localeCompare := collate;
|}.

Definition root : XcodeNode := RootNode "/repo".
Definition app : XcodeNode := ProjectNode "App.xcodeproj" root.
Definition group : XcodeNode := GroupNode project G1 app.

End Sample.

(** ** The extension entry point ([extension.ts])

    [activate] registers the provider for the workspace root and one command.
    The command's callback builds the text it hands to [vscode.Uri.parse];
    opening and showing the document is the host's work. *)

Record Registrations : Type := {
  treeExplorerNodeProviders : list (string * XcodeNode);   (* id, root node *)
  commands : list string;
}.

Definition activate (rootPath : string) : Registrations := {|
  treeExplorerNodeProviders := [("XcodeProject", provideRootNode rootPath)];
  commands := ["extension.openXcodeFileNode"];
|}.

(** [`file://${node.path()}`], the argument of [vscode.Uri.parse]. *)
Definition openXcodeFileNode (node : XcodeNode) : outcome string :=
  p ← path node;
  Return ("file://" +:+ p).

(** ** The shape of the tree *)

Definition parent_of (n : XcodeNode) : option XcodeNode :=
  match n with
  | RootNode _ => None
  | ProjectNode _ parent | GroupNode _ _ parent
  | BuildFileNode _ _ parent | FileNode _ _ parent => Some parent
  end.

(** The directory of the root node at the top of the parent chain. *)
Fixpoint root_path (n : XcodeNode) : string :=
  match n with
  | RootNode rootPath => rootPath
  | ProjectNode _ parent | GroupNode _ _ parent
  | BuildFileNode _ _ parent | FileNode _ _ parent => root_path parent
  end.

Definition is_RootNode (n : XcodeNode) : bool :=
  match n with
  | RootNode _ => true
  | _ => false
  end.

Definition is_ProjectNode (n : XcodeNode) : bool :=
  match n with
  | ProjectNode _ _ => true
  | _ => false
  end.

Definition is_FileNode (n : XcodeNode) : bool :=
  match n with
  | FileNode _ _ _ => true
  | _ => false
  end.

(** The parent links the constructors' TypeScript signatures ask for: a
    project hangs under the root, a group under a project or a group, a file
    or build file under a group. *)
Fixpoint well_formed (n : XcodeNode) : bool :=
  match n with
  | RootNode _ => true
  | ProjectNode _ parent => is_RootNode parent
  | GroupNode _ _ parent =>
      (is_ProjectNode parent || is_GroupNode parent) && well_formed parent
  | BuildFileNode _ _ parent | FileNode _ _ parent =>
      is_GroupNode parent && well_formed parent
  end.

(** The nodes a [children()] call delivers: the elements of the array, or of
    the list the promise is fulfilled with. *)
Definition delivered (r : outcome Children) : list XcodeNode :=
  match r with
  | Return (Array nodes) | Return (Thenable (Fulfilled nodes)) => nodes
  | _ => []
  end.

(** [c] is shown under [n] when the host expands [n]. *)
Definition child_of (w : World) (n c : XcodeNode) : Prop :=
  c ∈ delivered (children w n []).1.

(** ** A workspace with defective projects

    [/ws] holds three bundles: [NoRoot] names a root object its project
    section lacks, [NoMain] names a main group its group section lacks, and
    the main group of [Flat] lists a file reference directly. *)
Module Defects.

Definition no_root : XcodeProject := {|
  rootObject := "P0";
  pbxProjectSection := ∅;
  pbxGroupSection := ∅;
  pbxFileReferenceSection := ∅;
  pbxBuildFileSection := [];
|}.

Definition no_main : XcodeProject := {|
  rootObject := "P0";
  pbxProjectSection := {[ "P0" := {| mainGroup := "G0" |} ]};
  pbxGroupSection := ∅;
  pbxFileReferenceSection := ∅;
  pbxBuildFileSection := [];
|}.

Definition Info_plist : Child := {| value := "F1"; comment := Some "Info.plist" |}.

Definition main : PBXGroup :=
  {| group_children := [Info_plist]; group_path := None |}.

Definition flat : XcodeProject := {|
  rootObject := "P0";
  pbxProjectSection := {[ "P0" := {| mainGroup := "G0" |} ]};
  pbxGroupSection := {[ "G0" := main ]};
  pbxFileReferenceSection := {[ "F1" := {| ref_path := "Info.plist" |} ]};
  pbxBuildFileSection := [];
|}.

Definition world : World := {|
  fs_dirs := {[ "/ws" := ["NoRoot.xcodeproj"; "NoMain.xcodeproj"; "Flat.xcodeproj"] ]};
  fs_pbxproj := {[ "/ws/NoRoot.xcodeproj/project.pbxproj" := Some no_root;
                   "/ws/NoMain.xcodeproj/project.pbxproj" := Some no_main;
                   "/ws/Flat.xcodeproj/project.pbxproj" := Some flat ]};
  localeCompare := collate;
|}.

Definition root : XcodeNode := RootNode "/ws".

(** A project whose identifier [D1] names a group and a file reference. *)
Definition D1 : Child := {| value := "D1"; comment := Some "Docs" |}.

Definition G0 : Child := {| value := "G0"; comment := None |}.

Definition twice : XcodeProject := {|
  rootObject := "P0";
  pbxProjectSection := {[ "P0" := {| mainGroup := "G0" |} ]};
  pbxGroupSection :=
    {[ "G0" := {| group_children := [D1]; group_path := None |};
       "D1" := {| group_children := []; group_path := Some "Docs" |} ]};
  pbxFileReferenceSection := {[ "D1" := {| ref_path := "Docs" |} ]};
  pbxBuildFileSection := [];
|}.

End Defects.

(** * Properties *)

(** ** Runs of logging code *)

Lemma GroupNode_child_run this project child out :
  GroupNode_child this project (pbxBuildFileSection project)
    (Object_keys (pbxBuildFileSection project)) child out
  = (resolved this project child, out ++ warnings this project child).
Proof.
  unfold resolved, warnings, GroupNode_child.
  destruct (getPBXGroupByKey project (value child)); simpl.
  { by rewrite app_nil_r. }
  destruct (pbxFileReferenceSection project !! value child); simpl.
  { by rewrite app_nil_r. }
  destruct (List.find _ _ ≫= _); simpl; [by rewrite app_nil_r | done].
Qed.

Lemma Array_map_run {A B} (f : A → Logging B) (array : list A) out :
  (∀ a out, f a out = ((f a []).1, out ++ (f a []).2)) →
  Array_map f array out
  = ((λ a, (f a []).1) <$> array, out ++ flat_map (λ a, (f a []).2) array).
Proof.
  intros Hf. revert out. induction array as [|a array IH]; intros out; simpl.
  - by rewrite app_nil_r.
  - unfold mbind, Logging_bind. rewrite Hf, IH. simpl. by rewrite app_assoc.
Qed.

Lemma omap_id_fmap {A B} (f : A → option B) (l : list A) :
  omap id (f <$> l) = omap f l.
Proof. induction l as [|a l IH]; csimpl; [done|]. rewrite IH. by destruct (f a). Qed.

Lemma GroupNode_children_run project data parent group out :
  getPBXGroupByKey project (value data) = Some group →
  let this := GroupNode project data parent in
  GroupNode_children this project data out
  = (Fulfilled (omap (resolved this project) (group_children group)),
     out ++ flat_map (warnings this project) (group_children group)).
Proof.
  intros Hgroup this. unfold GroupNode_children. rewrite Hgroup. simpl.
  unfold mbind, Logging_bind.
  rewrite (Array_map_run _ _ _ (GroupNode_child_run this project)).
  simpl. unfold mret, Logging_ret. f_equal. f_equal.
  apply (omap_id_fmap (resolved this project)).
Qed.

(** ** The three-way resolution of a child identifier *)

Lemma Object_get_keys {V} (sec : list (string * V)) key v :
  Object_get sec key = Some v → In key (Object_keys sec).
Proof.
  induction sec as [|[k v'] sec IH]; simpl; [done|].
  case_bool_decide; [by left | by right; apply IH].
Qed.

(** The record [bfileSec[bfileKeys.find(...)]] is one whose [fileRef] is the
    identifier, and there is one whenever the section has any. *)
Lemma find_build_file project id :
  let sec := pbxBuildFileSection project in
  match List.find (λ key, bool_decide (Object_get sec key ≫= fileRef = Some id))
                  (Object_keys sec) ≫= Object_get sec with
  | Some bfile => build_file_of project id bfile
  | None => ∀ bfile, ¬ build_file_of project id bfile
  end.
Proof.
  intros sec.
  destruct (List.find _ _) as [key|] eqn:Hfind; simpl.
  - apply find_some in Hfind as [_ Hkey]. apply bool_decide_eq_true in Hkey.
    destruct (Object_get sec key) as [bfile|] eqn:Hget; simpl in *; [|done].
    by exists key.
  - intros bfile (key & Hget & Href).
    pose proof (find_none _ _ Hfind key (Object_get_keys _ _ _ Hget)) as Hno.
    simpl in Hno. apply bool_decide_eq_false in Hno.
    apply Hno. unfold sec in *. by rewrite Hget.
Qed.

Lemma resolved_group this project child :
  is_Some (getPBXGroupByKey project (value child)) →
  resolved this project child = Some (GroupNode project child this)
  ∧ warnings this project child = [].
Proof.
  intros [g Hg]. unfold resolved, warnings, GroupNode_child. by rewrite Hg.
Qed.

Lemma resolved_file this project child :
  getPBXGroupByKey project (value child) = None →
  is_Some (pbxFileReferenceSection project !! value child) →
  resolved this project child = Some (FileNode project child this)
  ∧ warnings this project child = [].
Proof.
  intros Hg [f Hf]. unfold resolved, warnings, GroupNode_child. by rewrite Hg, Hf.
Qed.

Lemma resolved_build_file this project child :
  getPBXGroupByKey project (value child) = None →
  pbxFileReferenceSection project !! value child = None →
  (∃ bfile, build_file_of project (value child) bfile) →
  ∃ bfile, build_file_of project (value child) bfile
           ∧ resolved this project child = Some (BuildFileNode project bfile this)
           ∧ warnings this project child = [].
Proof.
  intros Hg Hf [b0 Hb0]. unfold resolved, warnings, GroupNode_child.
  rewrite Hg, Hf.
  pose proof (find_build_file project (value child)) as Hfind. simpl in Hfind.
  destruct (List.find _ _ ≫= _) as [bfile|]; simpl.
  - by exists bfile.
  - by destruct (Hfind b0).
Qed.

Lemma resolved_unknown this project child :
  getPBXGroupByKey project (value child) = None →
  pbxFileReferenceSection project !! value child = None →
  (∀ bfile, ¬ build_file_of project (value child) bfile) →
  resolved this project child = None
  ∧ warnings this project child = [Unknown_child child].
Proof.
  intros Hg Hf Hnone. unfold resolved, warnings, GroupNode_child.
  rewrite Hg, Hf.
  pose proof (find_build_file project (value child)) as Hfind. simpl in Hfind.
  destruct (List.find _ _ ≫= _) as [bfile|]; simpl; [|done].
  by destruct (Hnone bfile).
Qed.

(** A build-file node is only ever produced for an identifier that is
    neither a group nor a file reference. *)
Lemma resolved_BuildFileNode this project child n :
  resolved this project child = Some n →
  is_BuildFileNode n = true →
  getPBXGroupByKey project (value child) = None
  ∧ pbxFileReferenceSection project !! value child = None.
Proof.
  unfold resolved, GroupNode_child.
  destruct (getPBXGroupByKey project (value child)); simpl.
  { by intros [= <-]. }
  destruct (pbxFileReferenceSection project !! value child); simpl.
  { by intros [= <-]. }
  done.
Qed.

Lemma length_omap_le {A B} (f : A → option B) (l : list A) :
  (length (omap f l) ≤ length l)%nat.
Proof. induction l as [|a l IH]; csimpl; [done|]. destruct (f a); simpl; lia. Qed.

(** ** [GroupNode.children] *)

(** C1.  A group's child entries are resolved one by one, each to at most one
    node, by trying in this order: the group section, the file-reference
    section, the build-file section searched by [fileRef].  An identifier
    with a file-reference record is never turned into a build-file node, and
    becomes a file node unless the group lookup already answered. *)
Theorem GroupNode_children_resolution_order project data parent group out :
  getPBXGroupByKey project (value data) = Some group →
  let this := GroupNode project data parent in
  (GroupNode_children this project data out).1
    = Fulfilled (omap (resolved this project) (group_children group))
  ∧ (length (omap (resolved this project) (group_children group))
       ≤ length (group_children group))%nat
  ∧ ∀ child,
      (is_Some (getPBXGroupByKey project (value child)) →
         resolved this project child = Some (GroupNode project child this))
    ∧ (getPBXGroupByKey project (value child) = None →
       is_Some (pbxFileReferenceSection project !! value child) →
         resolved this project child = Some (FileNode project child this))
    ∧ (is_Some (pbxFileReferenceSection project !! value child) →
         ∀ n, resolved this project child = Some n → is_BuildFileNode n = false)
    ∧ (getPBXGroupByKey project (value child) = None →
       pbxFileReferenceSection project !! value child = None →
       (∃ bfile, build_file_of project (value child) bfile) →
         ∃ bfile, build_file_of project (value child) bfile
                  ∧ resolved this project child
                    = Some (BuildFileNode project bfile this)).
Proof.
  intros Hgroup this. split; [|split; [apply length_omap_le|]].
  - unfold this. by rewrite (GroupNode_children_run _ _ _ _ _ Hgroup).
  - intros child. repeat split.
    + intros Hg. by apply resolved_group.
    + intros Hg Hf. by apply resolved_file.
    + intros [f Hf] n Hn. destruct (is_BuildFileNode n) eqn:Hb; [|done].
      destruct (resolved_BuildFileNode _ _ _ _ Hn Hb) as [_ Hnone]. congruence.
    + intros Hg Hf Hb.
      destruct (resolved_build_file this project child Hg Hf Hb) as (b & ? & ? & _).
      by exists b.
Qed.

Lemma GroupNode_children_resolution_order_witness :
  getPBXGroupByKey Sample.project "G1" = Some Sample.App
  ∧ (GroupNode_children Sample.group Sample.project Sample.G1 []).1
    = Fulfilled [ FileNode Sample.project Sample.F2 Sample.group;
                  GroupNode Sample.project Sample.G2 Sample.group;
                  BuildFileNode Sample.project Sample.lib_a Sample.group;
                  GroupNode Sample.project Sample.G3 Sample.group ]
  ∧ build_file_of Sample.project "F2" Sample.main_swift
  ∧ resolved Sample.group Sample.project Sample.F2
    = Some (FileNode Sample.project Sample.F2 Sample.group).
Proof.
  split; [reflexivity|].
  pose proof (GroupNode_children_resolution_order
                Sample.project Sample.G1 Sample.app Sample.App [] eq_refl)
    as (Hrun & _ & Hchild).
  split; [exact Hrun|]. split.
  - exists "B0". split; reflexivity.
  - destruct (Hchild Sample.F2) as (_ & Hfile & _).
    apply Hfile; [reflexivity|]. eexists. reflexivity.
Defined.

(** C7.  A child identifier known to none of the three sections is left out of
    the resolved list; one warning is written for it; the promise is
    fulfilled; and the entries before and after it resolve as they do on
    their own. *)
Theorem GroupNode_children_unknown_child w project data parent group pre child post out :
  getPBXGroupByKey project (value data) = Some group →
  group_children group = pre ++ child :: post →
  getPBXGroupByKey project (value child) = None →
  pbxFileReferenceSection project !! value child = None →
  (∀ bfile, ¬ build_file_of project (value child) bfile) →
  let this := GroupNode project data parent in
  children w this out
  = (Return (Thenable (Fulfilled (omap (resolved this project) pre
                                  ++ omap (resolved this project) post))),
     out ++ flat_map (warnings this project) pre
         ++ [Unknown_child child]
         ++ flat_map (warnings this project) post).
Proof.
  intros Hgroup Hsplit Hg Hf Hb this. unfold this, children.
  unfold mbind, Logging_bind.
  rewrite (GroupNode_children_run _ _ _ _ _ Hgroup). fold this.
  destruct (resolved_unknown this project child Hg Hf Hb) as [Hres Hwarn].
  rewrite Hsplit, omap_app, flat_map_app. csimpl. rewrite Hres, Hwarn.
  reflexivity.
Qed.

Lemma GroupNode_children_unknown_child_witness :
  children Sample.world Sample.group []
  = (Return (Thenable (Fulfilled
       [ FileNode Sample.project Sample.F2 Sample.group;
         GroupNode Sample.project Sample.G2 Sample.group;
         BuildFileNode Sample.project Sample.lib_a Sample.group;
         GroupNode Sample.project Sample.G3 Sample.group ])),
     [Unknown_child Sample.XX]).
Proof.
  refine (GroupNode_children_unknown_child Sample.world Sample.project Sample.G1
            Sample.app Sample.App [Sample.F2; Sample.G2; Sample.B9] Sample.XX
            [Sample.G3] [] eq_refl eq_refl eq_refl eq_refl _).
  intros bfile (key & Hget & Href). simpl in Hget.
  repeat case_bool_decide; try done; injection Hget as <-; discriminate Href.
Defined.

(** C8.  Two calls of [children()] on a group node in a row settle alike: both
    are rejected with the same error, or both are fulfilled with lists of
    the same length whose entries agree pairwise on [label()] and [path()].
    Only the console differs between the calls. *)
Theorem GroupNode_children_twice w project data parent out :
  let this := GroupNode project data parent in
  ∃ p1 out1 p2 out2,
    children w this out = (Return (Thenable p1), out1)
    ∧ children w this out1 = (Return (Thenable p2), out2)
    ∧ match p1, p2 with
      | Fulfilled nodes1, Fulfilled nodes2 =>
          length nodes1 = length nodes2
          ∧ Forall2 (λ n1 n2, label n1 = label n2 ∧ path n1 = path n2) nodes1 nodes2
      | Rejected e1, Rejected e2 => e1 = e2
      | _, _ => False
      end.
Proof.
  intros this. unfold this, children, mbind, Logging_bind.
  destruct (getPBXGroupByKey project (value data)) as [group|] eqn:Hgroup.
  - eexists _, _, _, _.
    split; [by rewrite (GroupNode_children_run _ _ _ _ _ Hgroup)|].
    split; [by rewrite (GroupNode_children_run _ _ _ _ _ Hgroup)|].
    split; [done|]. by apply Forall2_same_length_lookup_2; [|intros ??? -> [= <-]].
  - unfold GroupNode_children. rewrite Hgroup.
    by eexists _, _, _, _.
Qed.

(** ** [resolveChildren] without sorting *)

(** C9.  With [sortAlphabetically] off, [resolveChildren] hands back what
    [children()] produced, whatever [directoriesFirst] says; two runs that
    differ only in [directoriesFirst] give the same result. *)
Theorem resolveChildren_unsorted (directoriesFirst1 directoriesFirst2 : bool) w node out :
  let config d := {| sortAlphabetically := false; directoriesFirst := d |} in
  resolveChildren (config directoriesFirst1) w node out = children w node out
  ∧ resolveChildren (config directoriesFirst1) w node out
    = resolveChildren (config directoriesFirst2) w node out.
Proof.
  intros config. unfold resolveChildren, mbind, Logging_bind. simpl.
  by destruct (children w node out).
Qed.

(** ** [path()] *)

Lemma replace_quotes_from_inner s :
  replace_quotes_from false (s +:+ String dquote "") = s.
Proof.
  induction s as [|c s IH]; simpl; [done|].
  rewrite IH. destruct (s +:+ String dquote "") eqn:Hrest.
  - by destruct s.
  - simpl. by rewrite andb_false_r.
Qed.


Lemma replace_quotes_from_plain s :
  last_char s ≠ Some dquote → replace_quotes_from false s = s.
Proof.
  induction s as [|c s IH]; simpl; [done|]. intros Hlast.
  destruct s as [|c' s].
  - destruct (Ascii.eqb_spec c dquote) as [->|]; simpl; [done|done].
  - rewrite andb_false_r. f_equal. by apply IH.
Qed.

(** A string with no quote at either end is left alone. *)
Lemma replace_quotes_plain c s :
  c ≠ dquote → last_char (String c s) ≠ Some dquote →
  replace_quotes (String c s) = String c s.
Proof.
  intros Hc Hlast. unfold replace_quotes.
  change (replace_quotes_from true (String c s))
    with (if Ascii.eqb c dquote && (true || bool_decide (s = ""))
          then replace_quotes_from false s
          else String c (replace_quotes_from false s)).
  destruct (Ascii.eqb_spec c dquote) as [->|_]; [done|]. simpl. f_equal.
  destruct s as [|c' s]; [done|]. by apply replace_quotes_from_plain.
Qed.



Lemma path_GroupNode_segment project data parent group d segment :
  getPBXGroupByKey project (value data) = Some group →
  path parent = Return d →
  group_path group = Some segment → segment ≠ "" →
  path (GroupNode project data parent) = Return (posix.join [d; segment]).
Proof.
  intros Hgroup Hparent Hseg Hne. simpl. rewrite Hparent. simpl. rewrite Hgroup. simpl.
  rewrite Hseg. simpl. by rewrite bool_decide_true.
Qed.

Lemma path_GroupNode_virtual project data parent group d :
  getPBXGroupByKey project (value data) = Some group →
  path parent = Return d →
  truthy (group_path group) = false →
  path (GroupNode project data parent) = Return d.
Proof.
  intros Hgroup Hparent Hfalsy. simpl. rewrite Hparent. simpl. rewrite Hgroup. simpl.
  by rewrite Hfalsy.
Qed.

(** C5.  [GroupNode.path()] is the parent's path joined with the group
    record's [path] when that is a non-empty string, and the parent's path
    itself when the record has no [path] or an empty one. *)
Theorem GroupNode_path project data parent group d :
  getPBXGroupByKey project (value data) = Some group →
  path parent = Return d →
  (∀ segment, group_path group = Some segment → segment ≠ "" →
     path (GroupNode project data parent) = Return (posix.join [d; segment]))
  ∧ (group_path group = None ∨ group_path group = Some "" →
     path (GroupNode project data parent) = Return d).
Proof.
  intros Hgroup Hparent. split.
  - intros segment. by apply path_GroupNode_segment.
  - intros Hnone. apply (path_GroupNode_virtual _ _ _ group); [done..|].
    by destruct Hnone as [-> | ->].
Qed.

Lemma GroupNode_path_witness :
  path Sample.group = Return "/repo/App"
  ∧ path (GroupNode Sample.project Sample.G2 Sample.group) = Return "/repo/App"
  ∧ path (GroupNode Sample.project Sample.G3 Sample.group) = Return "/repo/App".
Proof.
  split; [|split].
  - exact (proj1 (GroupNode_path Sample.project Sample.G1 Sample.app Sample.App
                    "/repo" eq_refl eq_refl) "App" eq_refl ltac:(discriminate)).
  - exact (proj2 (GroupNode_path Sample.project Sample.G2 Sample.group
                    {| group_children := []; group_path := Some "" |}
                    "/repo/App" eq_refl eq_refl) (or_intror eq_refl)).
  - exact (proj2 (GroupNode_path Sample.project Sample.G3 Sample.group
                    {| group_children := []; group_path := None |}
                    "/repo/App" eq_refl eq_refl) (or_introl eq_refl)).
Defined.

(** [path.join] of a single non-empty argument normalises it. *)
Lemma posix_join_single p : p ≠ "" → posix.join [p] = posix.normalize p.
Proof. intros Hp. unfold posix.join. simpl. by rewrite bool_decide_true. Qed.

(** The claim C10 makes for [ProjectNode.path()], that it is exactly the root
    directory path, fails on a root path [path.join] rewrites. *)
Lemma ProjectNode_path_not_rootPath :
  path (ProjectNode "App.xcodeproj" (RootNode "/ws//")) = Return "/ws/"
  ∧ path (ProjectNode "App.xcodeproj" (RootNode "/ws//")) ≠ path (RootNode "/ws//").
Proof. split; [reflexivity | discriminate]. Qed.

(** C10, amended.  [ProjectNode.path()] is [path.join] of the root directory
    path alone: the bundle name plays no part, and the result is the root
    path itself whenever [path.join] leaves that unchanged.  A group right
    under the project therefore resolves against the root directory.
    [BuildFileNode.path()] joins the parent's path with the record's
    [fileRef_comment] as it is, and the node has no click command. *)
Theorem ProjectNode_path file rootPath :
  path (ProjectNode file (RootNode rootPath)) = Return (posix.join [rootPath])
  ∧ (rootPath ≠ "" → posix.normalize rootPath = rootPath →
     path (ProjectNode file (RootNode rootPath)) = Return rootPath)
  ∧ (∀ project data group segment,
       getPBXGroupByKey project (value data) = Some group →
       group_path group = Some segment → segment ≠ "" →
       path (GroupNode project data (ProjectNode file (RootNode rootPath)))
       = Return (posix.join [posix.join [rootPath]; segment]))
  ∧ (∀ project data parent,
       clickCommand (BuildFileNode project data parent) = None
       ∧ ∀ d name, path parent = Return d → fileRef_comment data = Some name →
           path (BuildFileNode project data parent) = Return (posix.join [d; name])).
Proof.
  split; [done|]. split; [|split].
  - intros Hne Hnorm. simpl. by rewrite (posix_join_single _ Hne), Hnorm.
  - intros project data group segment Hgroup Hseg Hne.
    by apply (path_GroupNode_segment project data _ group).
  - intros project data parent. split; [done|].
    intros d name Hparent Hname. simpl. rewrite Hparent. simpl. by rewrite Hname.
Qed.

Lemma ProjectNode_path_witness :
  path Sample.app = Return "/repo"
  ∧ path Sample.group = Return "/repo/App"
  ∧ path (BuildFileNode Sample.project Sample.lib_a Sample.group)
    = Return "/repo/App/lib.a".
Proof.
  pose proof (ProjectNode_path "App.xcodeproj" "/repo") as (_ & Hroot & Hgroup & Hbfile).
  split; [|split].
  - exact (Hroot ltac:(discriminate) eq_refl).
  - exact (Hgroup Sample.project Sample.G1 Sample.App "App" eq_refl eq_refl
             ltac:(discriminate)).
  - exact (proj2 (Hbfile Sample.project Sample.lib_a Sample.group)
             "/repo/App" "lib.a" eq_refl eq_refl).
Defined.

(** ** [RootNode.children] *)

(** The regular expression [/\.xcodeproj$/] matches the names that end in
    [.xcodeproj]. *)
Lemma match_xcodeproj_ends_with file :
  match_xcodeproj file = true ↔ ends_with ".xcodeproj" file.
Proof.
  split.
  - induction file as [|c file IH]; simpl.
    + done.
    + intros [Heq | Hrest]%orb_true_iff.
      * apply bool_decide_eq_true in Heq. by exists "".
      * destruct (IH Hrest) as [start ->]. by exists (String c start).
  - intros [start ->]. induction start as [|c start IH].
    + reflexivity.
    + change (match_xcodeproj (String c start +:+ ".xcodeproj"))
        with (bool_decide (String c start +:+ ".xcodeproj" = ".xcodeproj")
              || match_xcodeproj (start +:+ ".xcodeproj")).
      rewrite IH. apply orb_true_r.
Qed.

(** C6.  In a readable root directory, [children()] is one project node per
    entry whose name ends in [.xcodeproj], in directory order, and nothing
    for the other entries: the entries split into the bundles and the rest,
    and the nodes are the bundles'.  With no bundle the list is empty. *)
Theorem RootNode_children_bundles w rootPath entries out :
  fs_dirs w !! rootPath = Some entries →
  ∃ bundles others,
    entries ≡ₚ bundles ++ others
    ∧ sublist bundles entries
    ∧ Forall (ends_with ".xcodeproj") bundles
    ∧ Forall (λ file, ¬ ends_with ".xcodeproj" file) others
    ∧ children w (RootNode rootPath) out
      = (Return (Array ((λ file, ProjectNode file (RootNode rootPath)) <$> bundles)), out)
    ∧ length ((λ file, ProjectNode file (RootNode rootPath)) <$> bundles) = length bundles
    ∧ (Forall (λ file, ¬ ends_with ".xcodeproj" file) entries → bundles = []).
Proof.
  intros Hdir.
  exists (filter (λ file : string, match_xcodeproj file) entries),
         (filter (λ file : string, ¬ match_xcodeproj file) entries).
  split; [by rewrite filter_app_complement|].
  split; [apply sublist_filter|].
  split.
  { apply Forall_forall. intros file [Hm _]%list_elem_of_filter.
    by apply match_xcodeproj_ends_with, Is_true_eq_true. }
  split.
  { apply Forall_forall. intros file [Hm _]%list_elem_of_filter Hends.
    by apply Hm, Is_true_eq_left, match_xcodeproj_ends_with. }
  split.
  { simpl. unfold RootNode_children, readdirSync. by rewrite Hdir. }
  split; [by rewrite length_fmap|].
  intros Hnone. induction entries as [|file entries IH] in Hnone |- *; [done|].
  apply Forall_cons in Hnone as [Hfile Hnone].
  rewrite filter_cons_False; [by apply IH|].
  intros Hm. by apply Hfile, match_xcodeproj_ends_with, Is_true_eq_true.
Qed.

Lemma RootNode_children_bundles_witness :
  fs_dirs Sample.world !! "/repo"
    = Some ["App.xcodeproj"; "README.md"; "Lib.xcodeproj"; "old.xcodeproj.bak"]
  ∧ ∃ bundles,
      children Sample.world Sample.root []
      = (Return (Array ((λ file, ProjectNode file Sample.root) <$> bundles)), [])
      ∧ Forall (ends_with ".xcodeproj") bundles.
Proof.
  split; [reflexivity|].
  destruct (RootNode_children_bundles Sample.world "/repo" _ [] eq_refl)
    as (bundles & _ & _ & _ & Hends & _ & Hchildren & _).
  by exists bundles.
Defined.

(** ** Errors of the file system and of the parser *)

(** The claim C2 makes, that an unreadable root directory and an unreadable or
    malformed project file each end in an empty child list, fails: the first
    is thrown, the second rejects the promise, and nothing is logged. *)
Lemma children_errors_not_empty :
  fs_dirs Sample.world !! "/nowhere" = None
  ∧ children Sample.world (RootNode "/nowhere") []
    = (Throw (FilesystemError "/nowhere"), [])
  ∧ (children Sample.world (RootNode "/nowhere") []).1 ≠ Return (Array [])
  ∧ fs_pbxproj Sample.world !! "/repo/Lib.xcodeproj/project.pbxproj" = Some None
  ∧ children Sample.world (ProjectNode "Lib.xcodeproj" Sample.root) []
    = (Return (Thenable (Rejected (ParseError "/repo/Lib.xcodeproj/project.pbxproj"))), [])
  ∧ (children Sample.world (ProjectNode "Lib.xcodeproj" Sample.root) []).1
    ≠ Return (Thenable (Fulfilled [])).
Proof. repeat split; (reflexivity || discriminate). Qed.

(** C2, amended.  No node catches an error.  For an unreadable root
    directory [RootNode.children()] throws the file-system error, and so does
    [resolveChildren]; for a project file that is missing or does not parse
    [ProjectNode.children()] is a promise rejected with the error, and
    [resolveChildren] hands that rejection to the host.  The console is left
    as it was. *)
Theorem children_errors_propagate config w out :
  (∀ rootPath,
     fs_dirs w !! rootPath = None →
     children w (RootNode rootPath) out = (Throw (FilesystemError rootPath), out)
     ∧ resolveChildren config w (RootNode rootPath) out
       = (Throw (FilesystemError rootPath), out))
  ∧ (∀ rootPath file e,
       parseSync w (posix.join [rootPath; file; "project.pbxproj"]) = Throw e →
       children w (ProjectNode file (RootNode rootPath)) out
       = (Return (Thenable (Rejected e)), out)
       ∧ resolveChildren config w (ProjectNode file (RootNode rootPath)) out
         = (Return (Thenable (Rejected e)), out))
  ∧ (∀ pbxproj,
       (fs_pbxproj w !! pbxproj = None →
          parseSync w pbxproj = Throw (FilesystemError pbxproj))
       ∧ (fs_pbxproj w !! pbxproj = Some None →
          parseSync w pbxproj = Throw (ParseError pbxproj))).
Proof.
  split; [|split].
  - intros rootPath Hdir.
    assert (children w (RootNode rootPath) out
            = (Throw (FilesystemError rootPath), out)) as Hchildren.
    { simpl. unfold RootNode_children, readdirSync. by rewrite Hdir. }
    split; [done|].
    unfold resolveChildren, mbind, Logging_bind. rewrite Hchildren.
    by destruct (sortAlphabetically config).
  - intros rootPath file e Hparse.
    assert (children w (ProjectNode file (RootNode rootPath)) out
            = (Return (Thenable (Rejected e)), out)) as Hchildren.
    { simpl. unfold ProjectNode_children. simpl. by rewrite Hparse. }
    split; [done|].
    unfold resolveChildren, mbind, Logging_bind. rewrite Hchildren.
    by destruct (sortAlphabetically config).
  - intros pbxproj. unfold parseSync. by split; intros ->.
Qed.

Lemma children_errors_propagate_witness :
  let config := {| sortAlphabetically := true; directoriesFirst := true |} in
  resolveChildren config Sample.world (RootNode "/nowhere") []
    = (Throw (FilesystemError "/nowhere"), [])
  ∧ resolveChildren config Sample.world (ProjectNode "Lib.xcodeproj" Sample.root) []
    = (Return (Thenable (Rejected (ParseError "/repo/Lib.xcodeproj/project.pbxproj"))), [])
  ∧ resolveChildren config Sample.world (ProjectNode "Gone.xcodeproj" Sample.root) []
    = (Return (Thenable (Rejected (FilesystemError "/repo/Gone.xcodeproj/project.pbxproj"))), []).
Proof.
  intros config.
  pose proof (children_errors_propagate config Sample.world []) as (Hroot & Hproject & Hparse).
  split; [|split].
  - exact (proj2 (Hroot "/nowhere" eq_refl)).
  - exact (proj2 (Hproject "/repo" "Lib.xcodeproj" _
                    (proj2 (Hparse "/repo/Lib.xcodeproj/project.pbxproj") eq_refl))).
  - exact (proj2 (Hproject "/repo" "Gone.xcodeproj" _
                    (proj1 (Hparse "/repo/Gone.xcodeproj/project.pbxproj") eq_refl))).
Defined.

(** ** [Array.prototype.sort] *)

Section Array_sort_spec.
Context {A : Type} (compareFn : A → A → Z).

(** [x] may stand before [y]. *)
Let before (x y : A) : Prop := (compareFn x y ≤ 0)%Z.

Lemma insert_sorted_Permutation x l : insert_sorted compareFn x l ≡ₚ x :: l.
Proof.
  induction l as [|y l IH]; simpl; [done|].
  destruct (compareFn x y <=? 0)%Z; [done|].
  by rewrite IH, Permutation_swap.
Qed.

Lemma Array_sort_Permutation l : Array_sort compareFn l ≡ₚ l.
Proof.
  induction l as [|x l IH]; simpl; [done|].
  by rewrite insert_sorted_Permutation, IH.
Qed.

(** Insertion never moves [x] past an element of its own class. *)
Lemma filter_insert_sorted (P : A → Prop) `{!∀ x, Decision (P x)} x l :
  (∀ y, P x → P y → before x y) →
  filter P (insert_sorted compareFn x l) = filter P (x :: l).
Proof.
  intros Hclass. induction l as [|y l IH]; simpl; [done|].
  destruct (compareFn x y <=? 0)%Z eqn:Hxy; [done|].
  apply Z.leb_gt in Hxy.
  destruct (decide (P x)) as [Hx|Hx].
  - assert (¬ P y) as Hy.
    { intros Hy. specialize (Hclass y Hx Hy). unfold before in Hclass. lia. }
    rewrite (filter_cons_False _ y) by done. rewrite IH.
    rewrite !(filter_cons_True _ x) by done.
    by rewrite (filter_cons_False _ y).
  - rewrite (filter_cons_False _ x) by done.
    destruct (decide (P y)) as [Hy|Hy].
    + rewrite !(filter_cons_True _ y) by done. rewrite IH.
      by rewrite (filter_cons_False _ x).
    + rewrite !(filter_cons_False _ y) by done. rewrite IH.
      by rewrite (filter_cons_False _ x).
Qed.

(** Stability: the elements of one class keep their order. *)
Lemma Array_sort_stable (P : A → Prop) `{!∀ x, Decision (P x)} l :
  (∀ x y, P x → P y → before x y) →
  filter P (Array_sort compareFn l) = filter P l.
Proof.
  intros Hclass. induction l as [|x l IH]; simpl; [done|].
  rewrite filter_insert_sorted by (intros y; apply Hclass).
  destruct (decide (P x)).
  - rewrite !(filter_cons_True _ x) by done. by rewrite IH.
  - rewrite !(filter_cons_False _ x) by done. by rewrite IH.
Qed.

Hypothesis compareFn_total : ∀ x y, before x y ∨ before y x.
Hypothesis compareFn_trans : ∀ x y z, before x y → before y z → before x z.

Lemma insert_sorted_StronglySorted x l :
  StronglySorted before l → StronglySorted before (insert_sorted compareFn x l).
Proof.
  induction 1 as [|y l Hl IH Hy]; simpl.
  { by repeat constructor. }
  destruct (compareFn x y <=? 0)%Z eqn:Hxy.
  - apply Z.leb_le in Hxy. constructor; [by constructor|].
    constructor; [done|].
    eapply Forall_impl; [exact Hy|]. intros z Hyz. by apply (compareFn_trans x y z).
  - apply Z.leb_gt in Hxy. constructor; [done|].
    rewrite insert_sorted_Permutation. constructor; [|done].
    destruct (compareFn_total x y) as [Hle|Hle]; [|done].
    unfold before in Hle. lia.
Qed.

Lemma Array_sort_StronglySorted l : StronglySorted before (Array_sort compareFn l).
Proof.
  induction l as [|x l IH]; simpl; [constructor|].
  by apply insert_sorted_StronglySorted.
Qed.

(** [x] and [y] compare as equal. *)
Let tied (x y : A) : Prop := before x y ∧ before y x.

Local Instance tied_dec x y : Decision (tied x y).
Proof. unfold tied, before. apply _. Defined.

(** A sorted list is determined by its elements and by the order inside
    each class of tied elements. *)
Lemma stable_sorted_unique l1 l2 :
  StronglySorted before l1 → StronglySorted before l2 →
  l1 ≡ₚ l2 →
  (∀ a, filter (tied a) l1 = filter (tied a) l2) →
  l1 = l2.
Proof.
  intros Hs1. revert l2.
  induction Hs1 as [|x l1 Hs1 IH Hx]; intros l2 Hs2 Hperm Hstable.
  { by apply Permutation_nil_l in Hperm. }
  destruct Hs2 as [|y l2 Hs2 Hy].
  { by apply Permutation_nil_r in Hperm. }
  assert (before x x) as Hxx by (by destruct (compareFn_total x x)).
  assert (before y y) as Hyy by (by destruct (compareFn_total y y)).
  assert (before x y) as Hxy.
  { assert (y ∈ x :: l1) as [->|Hin]%elem_of_cons
      by (rewrite Hperm; by left); [done|].
    by eapply Forall_forall in Hx. }
  assert (before y x) as Hyx.
  { assert (x ∈ y :: l2) as [->|Hin]%elem_of_cons
      by (rewrite <-Hperm; by left); [done|].
    by eapply Forall_forall in Hy. }
  assert (x = y) as <-.
  { specialize (Hstable x).
    rewrite (filter_cons_True _ x), (filter_cons_True _ y) in Hstable by done.
    by injection Hstable. }
  f_equal. apply IH; [done|by apply (Permutation_cons_inv Hperm)|].
  intros a. specialize (Hstable a).
  destruct (decide (tied a x)).
  - rewrite !(filter_cons_True _ x) in Hstable by done. by injection Hstable.
  - by rewrite !(filter_cons_False _ x) in Hstable.
Qed.

(** Whatever algorithm an engine sorts with, a stable sort by a consistent
    comparison returns the list [Array_sort] computes. *)
Lemma Array_sort_unique l sorted :
  StronglySorted before sorted →
  sorted ≡ₚ l →
  (∀ a, filter (tied a) sorted = filter (tied a) l) →
  sorted = Array_sort compareFn l.
Proof.
  intros Hsorted Hperm Hstable.
  apply stable_sorted_unique; [done|apply Array_sort_StronglySorted| |].
  - by rewrite Array_sort_Permutation.
  - intros a. rewrite Hstable. symmetry. apply Array_sort_stable.
    intros x y [_ Hxa] [Hay _]. by apply (compareFn_trans x a y).
Qed.
End Array_sort_spec.

(** In a sorted list where nothing outside [P] may stand before something in
    [P], the elements of [P] come first. *)
Lemma StronglySorted_buckets {A} (R : relation A) (P : A → Prop)
    `{!∀ x, Decision (P x)} l :
  (∀ x y, ¬ P x → P y → ¬ R x y) →
  StronglySorted R l →
  l = filter P l ++ filter (λ x, ¬ P x) l.
Proof.
  intros Hsep. induction 1 as [|x l Hl IH Hx]; [done|].
  destruct (decide (P x)) as [HP|HP].
  - rewrite (filter_cons_True _ x) by done.
    rewrite (filter_cons_False _ x) by (by intros []). simpl. by rewrite <-IH.
  - rewrite (filter_cons_False _ x) by done.
    rewrite (filter_cons_True (λ x, ¬ P x) x) by done.
    assert (Forall (λ y, ¬ P y) l) as Hnone.
    { eapply Forall_impl; [exact Hx|]. intros y Hxy Hy. by apply (Hsep x y). }
    assert (filter P l = []) as ->.
    { clear -Hnone. induction Hnone as [|y l Hy _ IH]; [done|].
      by rewrite filter_cons_False. }
    simpl. f_equal.
    clear -Hnone. induction Hnone as [|y l Hy _ IH]; [done|].
    rewrite filter_cons_True by done. by rewrite <-IH.
Qed.

Lemma StronglySorted_filter {A} (R : relation A) (P : A → Prop)
    `{!∀ x, Decision (P x)} l :
  StronglySorted R l → StronglySorted R (filter P l).
Proof.
  induction 1 as [|x l Hl IH Hx]; [constructor|].
  destruct (decide (P x)).
  - rewrite filter_cons_True by done. constructor; [done|].
    apply Forall_forall. intros y [_ Hy]%list_elem_of_filter.
    by eapply Forall_forall in Hx.
  - by rewrite filter_cons_False.
Qed.

(** A sorted list stays sorted under a map that is monotone on its elements. *)
Lemma StronglySorted_fmap_on {A B} (R : relation A) (R' : relation B)
    (Q : A → Prop) (f : A → B) l :
  (∀ x y, Q x → Q y → R x y → R' (f x) (f y)) →
  Forall Q l → StronglySorted R l → StronglySorted R' (f <$> l).
Proof.
  intros Hmono HQ. induction 1 as [|x l Hl IH Hx]; csimpl; [constructor|].
  apply Forall_cons in HQ as [HQx HQ]. constructor; [by apply IH|].
  apply Forall_fmap, Forall_forall. intros y Hy.
  apply Hmono; [done| |].
  - by eapply Forall_forall in HQ.
  - by eapply Forall_forall in Hx.
Qed.

(** ** The comparison of sort keys *)

Lemma String_compare_refl a : String.compare a a = Eq.
Proof.
  induction a as [|x a IH]; simpl; [done|].
  unfold Ascii.compare. by rewrite N.compare_refl.
Qed.

Lemma String_compare_trans a b c :
  String.compare a b ≠ Gt → String.compare b c ≠ Gt → String.compare a c ≠ Gt.
Proof.
  revert b c. induction a as [|x a IH]; intros [|y b] [|z c]; simpl; try done.
  unfold Ascii.compare.
  destruct (N.compare_spec (N_of_ascii x) (N_of_ascii y)),
           (N.compare_spec (N_of_ascii y) (N_of_ascii z)),
           (N.compare_spec (N_of_ascii x) (N_of_ascii z));
    try done; try lia.
  apply IH.
Qed.

Lemma String_compare_prefix p a b :
  String.compare (p +:+ a) (p +:+ b) = String.compare a b.
Proof.
  induction p as [|x p IH]; simpl; [done|].
  unfold Ascii.compare. by rewrite N.compare_refl.
Qed.

Lemma fold_string_app a b :
  fold_string (a +:+ b) = fold_string a +:+ fold_string b.
Proof. induction a as [|x a IH]; simpl; [done|]. by rewrite IH. Qed.

(** When [collate] lets [a] stand before [b]. *)
Lemma collate_le a b :
  (collate a b ≤ 0)%Z
  ↔ String.compare (fold_string a) (fold_string b) = Lt
    ∨ (fold_string a = fold_string b ∧ String.compare b a ≠ Gt).
Proof.
  unfold collate.
  destruct (String.compare (fold_string a) (fold_string b)) eqn:Hfold.
  - apply String.compare_eq_iff in Hfold.
    destruct (String.compare b a); split; try lia; try (by right);
      by intros [?|[_ ?]].
  - split; [by left|lia].
  - split; [lia|]. by intros [?|[Heq _]]; [|rewrite Heq, String_compare_refl in Hfold].
Qed.

Lemma collate_consistent : consistent collate.
Proof.
  split.
  - intros a b. rewrite !collate_le.
    pose proof (String.compare_antisym (fold_string b) (fold_string a)) as Hfold'.
    pose proof (String.compare_antisym a b) as Htie.
    destruct (String.compare (fold_string a) (fold_string b)) eqn:Hfold;
      simpl in Hfold'.
    + apply String.compare_eq_iff in Hfold.
      destruct (String.compare b a) eqn:Hba; simpl in Htie.
      * left. by right.
      * left. by right.
      * right. right. by rewrite Htie.
    + by left; left.
    + by right; left.
  - intros a b c. rewrite !collate_le.
    intros [Hab|[Hab Htie1]] [Hbc|[Hbc Htie2]].
    + left.
      destruct (String.compare (fold_string a) (fold_string c)) eqn:Hac; [|done|].
      * apply String.compare_eq_iff in Hac. rewrite Hac in Hab.
        rewrite String.compare_antisym, Hbc in Hab. done.
      * exfalso. apply (String_compare_trans (fold_string a) (fold_string b)
                          (fold_string c)); by rewrite ?Hab, ?Hbc.
    + left. by rewrite <-Hbc.
    + left. by rewrite Hab.
    + right. split; [congruence|]. by apply (String_compare_trans c b a).
Qed.

Lemma collate_ignores_prefix prefix : ignores_prefix collate prefix.
Proof.
  intros a b. unfold collate.
  by rewrite !fold_string_app, !String_compare_prefix.
Qed.

Lemma collate_buckets_apart : buckets_apart collate.
Proof. intros a b. unfold collate. simpl. lia. Qed.

(** The shape of a sort key. *)
Lemma sortKey_GroupNode config n :
  directoriesFirst config = true → is_GroupNode n = true →
  sortKey config n = "000-" +:+ label_text n.
Proof. intros Hdirs Hn. destruct n; try done. unfold sortKey. by rewrite Hdirs. Qed.

Lemma sortKey_other config n :
  is_GroupNode n = false → sortKey config n = "001-" +:+ label_text n.
Proof. intros Hn. by destruct n. Qed.

(** With [directoriesFirst] on, no other node may stand before a group. *)
Lemma sortKey_buckets compare config a b :
  buckets_apart compare →
  directoriesFirst config = true →
  is_GroupNode a = false → is_GroupNode b = true →
  ¬ key_before compare config a b.
Proof.
  intros Hapart Hdirs Ha Hb. unfold key_before.
  rewrite (sortKey_other config a Ha), (sortKey_GroupNode config b Hdirs Hb).
  specialize (Hapart (label_text a) (label_text b)). lia.
Qed.

(** ** [resolveChildren] with sorting *)

#[local] Instance key_before_dec compare config a b :
  Decision (key_before compare config a b).
Proof. unfold key_before. apply _. Defined.

Lemma sort_children_spec w config nodes :
  consistent (localeCompare w) →
  let before := key_before (localeCompare w) config in
  sort_children w config nodes ≡ₚ nodes
  ∧ StronglySorted before (sort_children w config nodes)
  ∧ (∀ key, filter (λ n, sortKey config n = key) (sort_children w config nodes)
            = filter (λ n, sortKey config n = key) nodes)
  ∧ (∀ a, filter (λ n, before a n ∧ before n a) (sort_children w config nodes)
          = filter (λ n, before a n ∧ before n a) nodes).
Proof.
  intros [Htotal Htrans] before. unfold sort_children.
  split; [apply Array_sort_Permutation|]. split; [|split].
  - apply (Array_sort_StronglySorted
             (λ a b, localeCompare w (sortKey config a) (sortKey config b))).
    + intros a b. apply Htotal.
    + intros a b c. apply Htrans.
  - intros key. apply Array_sort_stable.
    intros a b -> <-. by destruct (Htotal (sortKey config b) (sortKey config b)).
  - intros a. apply Array_sort_stable.
    intros x y [_ Hxa] [Hay _]. exact (Htrans _ _ _ Hxa Hay).
Qed.

(** The claim C3 makes for every pair of flags with [directoriesFirst] on
    fails when [sortAlphabetically] is off: the children stay in resolution
    order, here with a file node ahead of the group nodes. *)
Lemma resolveChildren_directoriesFirst_unsorted :
  let config := {| sortAlphabetically := false; directoriesFirst := true |} in
  ∃ nodes out,
    resolveChildren config Sample.world Sample.group [] = (Return (Thenable (Fulfilled nodes)), out)
    ∧ ¬ ∃ groups others,
          nodes = groups ++ others
          ∧ Forall (λ n, is_GroupNode n = true) groups
          ∧ Forall (λ n, is_GroupNode n = false) others.
Proof.
  intros config. eexists _, _. split; [reflexivity|].
  intros (groups & others & Hsplit & Hgroups & Hothers).
  destruct groups as [|g groups]; simpl in Hsplit.
  - subst others. apply Forall_cons in Hothers as [_ Hothers].
    by apply Forall_cons in Hothers as [? _].
  - injection Hsplit as <- _. by apply Forall_cons in Hgroups as [? _].
Qed.

(** C3, amended.  With [sortAlphabetically] and [directoriesFirst] both on,
    and an engine whose [localeCompare] is consistent and tells the prefixes
    [000-] and [001-] apart, the children of a group node come out as a
    stable sort of the resolution order: the same nodes, nodes that compare
    as equal (those with equal sort keys among them) in their resolution
    order, every group node ahead of every other node, and within each of
    the two buckets the nodes in the order [localeCompare] gives their sort
    keys.  That is the order it gives their labels when it orders strings
    with a common bucket prefix as it orders the rest.  The order is the
    engine's collation, which need not be the order of character codes. *)
Theorem resolveChildren_directoriesFirst w project data parent out nodes out' :
  let this := GroupNode project data parent in
  let config := {| sortAlphabetically := true; directoriesFirst := true |} in
  let before := key_before (localeCompare w) config in
  consistent (localeCompare w) →
  buckets_apart (localeCompare w) →
  children w this out = (Return (Thenable (Fulfilled nodes)), out') →
  ∃ sorted groups others,
    resolveChildren config w this out = (Return (Thenable (Fulfilled sorted)), out')
    ∧ sorted ≡ₚ nodes
    ∧ (∀ key, filter (λ n, sortKey config n = key) sorted
              = filter (λ n, sortKey config n = key) nodes)
    ∧ (∀ a, filter (λ n, before a n ∧ before n a) sorted
            = filter (λ n, before a n ∧ before n a) nodes)
    ∧ sorted = groups ++ others
    ∧ Forall (λ n, is_GroupNode n = true) groups
    ∧ Forall (λ n, is_GroupNode n = false) others
    ∧ StronglySorted before groups
    ∧ StronglySorted before others
    ∧ (ignores_prefix (localeCompare w) "000-" →
       StronglySorted (text_before (localeCompare w)) (label_text <$> groups))
    ∧ (ignores_prefix (localeCompare w) "001-" →
       StronglySorted (text_before (localeCompare w)) (label_text <$> others)).
Proof.
  intros this config before Hconsistent Hapart Hchildren.
  destruct (sort_children_spec w config nodes Hconsistent)
    as (Hperm & Hsorted & Hstable & Htied).
  fold before in Hsorted, Htied.
  set (groups := filter (λ n, is_GroupNode n = true) (sort_children w config nodes)).
  set (others := filter (λ n, ¬ is_GroupNode n = true) (sort_children w config nodes)).
  assert (Forall (λ n, is_GroupNode n = true) groups) as Hgroups.
  { apply Forall_forall. by intros n [? _]%list_elem_of_filter. }
  assert (Forall (λ n, is_GroupNode n = false) others) as Hothers.
  { apply Forall_forall. intros n [? _]%list_elem_of_filter.
    by destruct (is_GroupNode n). }
  assert (StronglySorted before groups) as Hsorted_groups
    by (by apply StronglySorted_filter).
  assert (StronglySorted before others) as Hsorted_others
    by (by apply StronglySorted_filter).
  exists (sort_children w config nodes), groups, others.
  split.
  { unfold resolveChildren, mbind, Logging_bind. by rewrite Hchildren. }
  do 3 (split; [done|]). split.
  { apply (StronglySorted_buckets before); [|done].
    intros a b Ha Hb. apply sortKey_buckets; [done|done| |done].
    by destruct (is_GroupNode a). }
  do 4 (split; [done|]). split.
  - intros Hprefix.
    apply (StronglySorted_fmap_on before _ (λ n, is_GroupNode n = true));
      [|done|done].
    intros a b Ha Hb Hab. unfold before, key_before in Hab.
    rewrite !(sortKey_GroupNode config) in Hab by done. by apply Hprefix.
  - intros Hprefix.
    apply (StronglySorted_fmap_on before _ (λ n, is_GroupNode n = false));
      [|done|done].
    intros a b Ha Hb Hab. unfold before, key_before in Hab.
    rewrite !(sortKey_other config) in Hab by done. by apply Hprefix.
Qed.

Lemma resolveChildren_directoriesFirst_witness :
  consistent (localeCompare Sample.world)
  ∧ buckets_apart (localeCompare Sample.world)
  ∧ children Sample.world Sample.group []
    = (Return (Thenable (Fulfilled
         [ FileNode Sample.project Sample.F2 Sample.group;
           GroupNode Sample.project Sample.G2 Sample.group;
           BuildFileNode Sample.project Sample.lib_a Sample.group;
           GroupNode Sample.project Sample.G3 Sample.group ])),
       [Unknown_child Sample.XX])
  ∧ ∃ sorted groups others,
      resolveChildren {| sortAlphabetically := true; directoriesFirst := true |}
        Sample.world Sample.group []
      = (Return (Thenable (Fulfilled sorted)), [Unknown_child Sample.XX])
      ∧ sorted = groups ++ others
      ∧ Forall (λ n, is_GroupNode n = true) groups
      ∧ Forall (λ n, is_GroupNode n = false) others
      ∧ StronglySorted (text_before collate) (label_text <$> groups)
      ∧ StronglySorted (text_before collate) (label_text <$> others).
Proof.
  split; [exact collate_consistent|]. split; [exact collate_buckets_apart|].
  split; [reflexivity|].
  destruct (resolveChildren_directoriesFirst Sample.world Sample.project Sample.G1
              Sample.app [] _ _ collate_consistent collate_buckets_apart eq_refl)
    as (sorted & groups & others & Hrun & _ & _ & _ & Hsplit & Hgroups & Hothers
        & _ & _ & Hlabels_groups & Hlabels_others).
  exists sorted, groups, others.
  repeat split; try done.
  - exact (Hlabels_groups (collate_ignores_prefix "000-")).
  - exact (Hlabels_others (collate_ignores_prefix "001-")).
Defined.

(** On the sample group the collation puts [alpha] before [Zeta], which
    character codes would order the other way round. *)
Example resolveChildren_sample_sorted :
  (resolveChildren {| sortAlphabetically := true; directoriesFirst := true |}
     Sample.world Sample.group []).1
  = Return (Thenable (Fulfilled
      [ GroupNode Sample.project Sample.G3 Sample.group;
        GroupNode Sample.project Sample.G2 Sample.group;
        BuildFileNode Sample.project Sample.lib_a Sample.group;
        FileNode Sample.project Sample.F2 Sample.group ]))
  ∧ label_text <$> [ GroupNode Sample.project Sample.G3 Sample.group;
                     GroupNode Sample.project Sample.G2 Sample.group ]
    = ["alpha"; "Zeta"]
  ∧ ¬ lex_le "alpha" "Zeta".
Proof. split; [reflexivity|]. split; [reflexivity|]. by unfold lex_le. Qed.

(** ** The earlier two-pass revision *)


(** ** Worked examples *)

Example posix_join_nested :
  posix.join ["/repo/App"; "Sources/main.swift"] = "/repo/App/Sources/main.swift".
Proof. reflexivity. Qed.

Example posix_join_dots : posix.join ["/a/b"; "../c/./d"] = "/a/c/d".
Proof. reflexivity. Qed.

Example posix_join_empty : posix.join [""] = ".".
Proof. reflexivity. Qed.

Example replace_quotes_samples :
  replace_quotes (quoted "Sources/main.swift") = "Sources/main.swift"
  ∧ replace_quotes "Info.plist" = "Info.plist"
  ∧ replace_quotes (String dquote "") = ""
  ∧ replace_quotes (String dquote "a") = "a"
  ∧ replace_quotes ("a" +:+ String dquote "b") = "a" +:+ String dquote "b"
  ∧ replace_quotes (quoted (quoted "a")) = quoted "a".
Proof. repeat split. Qed.

Example match_xcodeproj_samples :
  match_xcodeproj "App.xcodeproj" = true
  ∧ match_xcodeproj ".xcodeproj" = true
  ∧ match_xcodeproj "old.xcodeproj.bak" = false
  ∧ match_xcodeproj "Axcodeproj" = false.
Proof. repeat split. Qed.

Example ProjectNode_children_sample :
  (children Sample.world Sample.app []).1
  = Return (Thenable (Fulfilled [Sample.group])).
Proof. reflexivity. Qed.

(** * Further properties of the code *)

(** ** What a child entry resolves to *)

Lemma resolved_or_warned this project child :
  (is_Some (resolved this project child) ∧ warnings this project child = [])
  ∨ (resolved this project child = None
     ∧ warnings this project child = [Unknown_child child]).
Proof.
  unfold resolved, warnings, GroupNode_child.
  destruct (getPBXGroupByKey project (value child)); simpl; [by left|].
  destruct (pbxFileReferenceSection project !! value child); simpl; [by left|].
  destruct (List.find _ _ ≫= _); simpl; [by left | by right].
Qed.

Lemma resolved_inv this project child n :
  resolved this project child = Some n →
  (n = GroupNode project child this
   ∧ is_Some (getPBXGroupByKey project (value child)))
  ∨ (n = FileNode project child this
     ∧ getPBXGroupByKey project (value child) = None
     ∧ is_Some (pbxFileReferenceSection project !! value child))
  ∨ (∃ bfile, n = BuildFileNode project bfile this
              ∧ getPBXGroupByKey project (value child) = None
              ∧ pbxFileReferenceSection project !! value child = None
              ∧ build_file_of project (value child) bfile).
Proof.
  unfold resolved, GroupNode_child.
  destruct (getPBXGroupByKey project (value child)) eqn:Hg; simpl.
  { intros [= <-]. by left. }
  destruct (pbxFileReferenceSection project !! value child) eqn:Hf; simpl.
  { intros [= <-]. right. by left. }
  pose proof (find_build_file project (value child)) as Hfind. simpl in Hfind.
  destruct (List.find _ _ ≫= _) as [bfile|]; simpl; [|done].
  intros [= <-]. right. right. by exists bfile.
Qed.

Lemma elem_of_omap_resolved this project n (entries : list Child) :
  n ∈ omap (resolved this project) entries →
  ∃ child, child ∈ entries ∧ resolved this project child = Some n.
Proof. intros (child & ? & ?)%list_elem_of_omap. by exists child. Qed.

(** X1.  [GroupNode.children()] accounts for every child entry exactly once:
    an entry becomes a node or a warning, never both and never neither.  The
    console is only appended to, and each warning names an entry of the
    group that no section knows. *)
Theorem GroupNode_children_accounting w project data parent group out :
  getPBXGroupByKey project (value data) = Some group →
  let this := GroupNode project data parent in
  ∃ nodes added,
    children w this out = (Return (Thenable (Fulfilled nodes)), out ++ added)
    ∧ (length nodes + length added = length (group_children group))%nat
    ∧ Forall (λ entry, ∃ child, child ∈ group_children group
                                ∧ entry = Unknown_child child
                                ∧ resolved this project child = None) added.
Proof.
  intros Hgroup this.
  exists (omap (resolved this project) (group_children group)),
         (flat_map (warnings this project) (group_children group)).
  split.
  { unfold this, children, mbind, Logging_bind.
    by rewrite (GroupNode_children_run _ _ _ _ _ Hgroup). }
  generalize (group_children group). intros entries.
  induction entries as [|child entries [IHlen IHwarn]]; csimpl; [by split|].
  destruct (resolved_or_warned this project child) as [[[n Hn] Hw]|[Hn Hw]];
    rewrite Hn, Hw; simpl; (split; [lia|]).
  - eapply Forall_impl; [exact IHwarn|]. intros entry (c & ? & ? & ?).
    exists c. by rewrite elem_of_cons; auto.
  - constructor.
    + exists child. by rewrite elem_of_cons; auto.
    + eapply Forall_impl; [exact IHwarn|]. intros entry (c & ? & ? & ?).
      exists c. by rewrite elem_of_cons; auto.
Qed.

Lemma GroupNode_children_accounting_witness :
  getPBXGroupByKey Sample.project "G1" = Some Sample.App
  ∧ ∃ nodes added,
      children Sample.world Sample.group [] = (Return (Thenable (Fulfilled nodes)), added)
      ∧ (length nodes + length added = 5)%nat.
Proof.
  split; [reflexivity|].
  destruct (GroupNode_children_accounting Sample.world Sample.project Sample.G1
              Sample.app Sample.App [] eq_refl) as (nodes & added & Hrun & Hlen & _).
  by exists nodes, added.
Defined.

Lemma Object_get_app_notin {V} (sec1 sec2 : list (string * V)) key :
  key ∉ Object_keys sec1 → Object_get (sec1 ++ sec2) key = Object_get sec2 key.
Proof.
  unfold Object_keys. induction sec1 as [|[k v] sec1 IH]; [done|].
  rewrite fmap_cons, not_elem_of_cons. intros [Hne Hnotin]. simpl in *.
  rewrite bool_decide_false by done. by apply IH.
Qed.

Lemma Object_get_app_in {V} (sec1 sec2 : list (string * V)) key :
  key ∈ Object_keys sec1 → Object_get (sec1 ++ sec2) key = Object_get sec1 key.
Proof.
  unfold Object_keys. induction sec1 as [|[k v] sec1 IH].
  { by intros ?%elem_of_nil. }
  rewrite fmap_cons, elem_of_cons. intros Hin. simpl in *.
  case_bool_decide; [done|]. destruct Hin as [?|Hin]; [done|]. by apply IH.
Qed.

Lemma Object_get_middle {V} (sec1 sec2 : list (string * V)) key v :
  key ∉ Object_keys sec1 → Object_get (sec1 ++ (key, v) :: sec2) key = Some v.
Proof.
  intros Hkey. rewrite Object_get_app_notin by done. simpl.
  by rewrite bool_decide_true.
Qed.

Lemma Object_get_elem_of {V} (sec : list (string * V)) key v :
  Object_get sec key = Some v → (key, v) ∈ sec.
Proof.
  induction sec as [|[k v'] sec IH]; simpl; [done|].
  case_bool_decide as Hk.
  - intros [= ->]. subst. by left.
  - intros Hget. right. by apply IH.
Qed.

(** X2.  When several build files refer to one identifier, the node is built
    from the first of them in the key order of the section. *)
Theorem GroupNode_child_first_build_file this project child before key bfile after :
  getPBXGroupByKey project (value child) = None →
  pbxFileReferenceSection project !! value child = None →
  pbxBuildFileSection project = before ++ (key, bfile) :: after →
  Forall (λ entry, fileRef entry.2 ≠ Some (value child)) before →
  key ∉ Object_keys before →
  fileRef bfile = Some (value child) →
  resolved this project child = Some (BuildFileNode project bfile this)
  ∧ warnings this project child = [].
Proof.
  intros Hg Hf Hsec Hbefore Hkey Href.
  unfold resolved, warnings, GroupNode_child. rewrite Hg, Hf, Hsec.
  assert (List.find
            (λ k, bool_decide (Object_get (before ++ (key, bfile) :: after) k
                               ≫= fileRef = Some (value child)))
            (Object_keys (before ++ (key, bfile) :: after)) = Some key) as ->.
  { unfold Object_keys. rewrite fmap_app.
    assert (∀ keys, keys ⊆ before.*1 →
              List.find
                (λ k, bool_decide (Object_get (before ++ (key, bfile) :: after) k
                                   ≫= fileRef = Some (value child)))
                (keys ++ ((key, bfile) :: after).*1) = Some key) as Hscan.
    { induction keys as [|k keys IH]; intros Hsub.
      - simpl. rewrite Object_get_middle by done. simpl.
        by rewrite bool_decide_true.
      - simpl. rewrite bool_decide_false; [apply IH; set_solver|].
        assert (k ∈ Object_keys before) as Hk by set_solver.
        rewrite Object_get_app_in by done.
        destruct (Object_get before k) as [b|] eqn:Hget; simpl; [|done].
        apply Object_get_elem_of in Hget.
        by eapply Forall_forall in Hbefore; [|exact Hget]. }
    by apply Hscan. }
  simpl. by rewrite Object_get_middle.
Qed.

Lemma GroupNode_child_first_build_file_witness :
  resolved Sample.group Sample.project Sample.B9
  = Some (BuildFileNode Sample.project Sample.lib_a Sample.group).
Proof.
  refine (proj1 (GroupNode_child_first_build_file Sample.group Sample.project
                   Sample.B9 [("B0", Sample.main_swift)] "B1" Sample.lib_a []
                   eq_refl eq_refl eq_refl _ _ eq_refl)).
  - repeat constructor. discriminate.
  - unfold Object_keys. simpl. intros [Heq|Hin]%elem_of_cons.
    + discriminate Heq.
    + by apply elem_of_nil in Hin.
Defined.

(** ** More on [path()] *)

Lemma path_throws_TypeError n e : path n = Throw e → e = TypeError.
Proof.
  revert e. induction n as [rootPath|file parent IH|project data parent IH
                            |project data parent IH|project data parent IH];
    intros e; simpl.
  - done.
  - destruct (path parent); simpl; [done|]. intros [= <-]. by apply IH.
  - destruct (path parent); simpl; [|intros [= <-]; by apply IH].
    destruct (getPBXGroupByKey project (value data)); simpl; [|by intros [= <-]].
    by destruct (truthy _).
  - destruct (path parent); simpl; [|intros [= <-]; by apply IH].
    by destruct (fileRef_comment data); simpl; [|intros [= <-]].
  - destruct (pbxFileReferenceSection project !! value data); simpl;
      [|by intros [= <-]].
    destruct (path parent); simpl; [done|]. intros [= <-]. by apply IH.
Qed.

Lemma path_parent_resolves n d parent :
  path n = Return d → parent_of n = Some parent → ∃ d', path parent = Return d'.
Proof.
  destruct n as [rootPath|file p|project data p|project data p|project data p];
    simpl; intros Hpath [= <-]; destruct (path p) as [d'|e] eqn:Hp;
    try by exists d'.
  all: simpl in Hpath; try done.
  by destruct (pbxFileReferenceSection project !! value data).
Qed.

(** X3.  [path()] reads nothing but the nodes and the parsed project: when it
    fails, it fails with a TypeError, never with an error of the file system
    or of the parser; and it yields a path only if the parent's [path()]
    yields one. *)
Theorem path_failure n :
  (∀ e, path n = Throw e → e = TypeError)
  ∧ (∀ d parent, path n = Return d → parent_of n = Some parent →
       ∃ d', path parent = Return d').
Proof.
  split.
  - intros e. apply path_throws_TypeError.
  - intros d parent. apply path_parent_resolves.
Qed.

Lemma path_failure_witness :
  path (GroupNode Sample.project Sample.F2 Sample.app) = Throw TypeError
  ∧ ∃ d', path Sample.app = Return d'.
Proof.
  pose proof (proj1 (path_failure (GroupNode Sample.project Sample.F2 Sample.app))
                TypeError eq_refl) as Herror.
  split; [reflexivity|].
  exact (proj2 (path_failure Sample.group) "/repo/App" Sample.app eq_refl eq_refl).
Defined.

Lemma posix_join_loop_absolute args p :
  posix.isAbsolute p = true → posix.isAbsolute (posix.join_loop args p) = true.
Proof.
  revert p. induction args as [|segment args IH]; intros p Hp; simpl; [done|].
  destruct p as [|c p]; [done|].
  case_bool_decide; [|by apply IH].
  rewrite bool_decide_false by done. by apply IH.
Qed.

Lemma posix_normalize_absolute p :
  posix.isAbsolute p = true → posix.isAbsolute (posix.normalize p) = true.
Proof. intros Hp. unfold posix.normalize. by rewrite Hp. Qed.

Lemma posix_join_absolute d rest :
  posix.isAbsolute d = true → posix.isAbsolute (posix.join (d :: rest)) = true.
Proof.
  intros Hd. unfold posix.join. apply posix_normalize_absolute. simpl.
  destruct d as [|c d]; [done|].
  rewrite bool_decide_true by done. simpl. by apply posix_join_loop_absolute.
Qed.

Lemma path_absolute_root n d :
  posix.isAbsolute (root_path n) = true → path n = Return d →
  posix.isAbsolute d = true.
Proof.
  revert d. induction n as [rootPath|file parent IH|project data parent IH
                            |project data parent IH|project data parent IH];
    intros d Hroot; simpl in *.
  - by intros [= <-].
  - destruct (path parent) as [dp|]; simpl; [|done]. intros [= <-].
    by apply posix_join_absolute, IH.
  - destruct (path parent) as [dp|]; simpl; [|done].
    destruct (getPBXGroupByKey project (value data)); simpl; [|done].
    destruct (truthy _); intros [= <-]; [|by apply IH].
    by apply posix_join_absolute, IH.
  - destruct (path parent) as [dp|]; simpl; [|done].
    destruct (fileRef_comment data); simpl; [|done]. intros [= <-].
    by apply posix_join_absolute, IH.
  - destruct (pbxFileReferenceSection project !! value data); simpl; [|done].
    destruct (path parent) as [dp|]; simpl; [|done]. intros [= <-].
    by apply posix_join_absolute, IH.
Qed.

(** X4.  Under a root directory given by an absolute path, every path a node
    resolves to is absolute, whatever the group and file records hold. *)
Theorem path_absolute n d :
  posix.isAbsolute (root_path n) = true → path n = Return d →
  posix.isAbsolute d = true.
Proof. apply path_absolute_root. Qed.

Lemma path_absolute_witness :
  let file := FileNode Sample.project Sample.F2 Sample.group in
  posix.isAbsolute (root_path file) = true
  ∧ path file = Return "/repo/App/Sources/main.swift"
  ∧ posix.isAbsolute "/repo/App/Sources/main.swift" = true.
Proof.
  intros file. split; [reflexivity|]. split; [reflexivity|].
  exact (path_absolute file "/repo/App/Sources/main.swift" eq_refl eq_refl).
Defined.

(** X5.  The command [activate] registers for file nodes hands
    [vscode.Uri.parse] the text [file://] followed by the node's path; under
    an absolute root directory that text starts with [file:///].  When the
    node's [path()] throws, so does the command. *)
Theorem openXcodeFileNode_uri node :
  (∀ d, path node = Return d → openXcodeFileNode node = Return ("file://" +:+ d))
  ∧ (∀ e, path node = Throw e → openXcodeFileNode node = Throw TypeError)
  ∧ (∀ uri, posix.isAbsolute (root_path node) = true →
       openXcodeFileNode node = Return uri →
       ∃ rest, uri = "file:///" +:+ rest).
Proof.
  unfold openXcodeFileNode. split; [|split].
  - by intros d ->.
  - intros e He. rewrite He. simpl. by rewrite (path_throws_TypeError _ _ He).
  - intros uri Hroot. destruct (path node) as [d|] eqn:Hpath; simpl; [|done].
    intros [= <-]. pose proof (path_absolute_root _ _ Hroot Hpath) as Habs.
    destruct d as [|c d]; [done|]. simpl in Habs.
    destruct (Ascii.eqb_spec c "/"%char) as [->|Hc].
    + by exists d.
    + by destruct c as [[] [] [] [] [] [] [] []].
Qed.

Lemma openXcodeFileNode_uri_witness :
  openXcodeFileNode (FileNode Sample.project Sample.F2 Sample.group)
  = Return "file:///repo/App/Sources/main.swift".
Proof.
  exact (proj1 (openXcodeFileNode_uri (FileNode Sample.project Sample.F2 Sample.group))
           "/repo/App/Sources/main.swift" eq_refl).
Defined.

(** ** Nodes over identifiers that are no groups *)

Lemma GroupNode_children_dangling w project data parent out :
  getPBXGroupByKey project (value data) = None →
  children w (GroupNode project data parent) out
  = (Return (Thenable (Rejected TypeError)), out).
Proof.
  intros Hgroup. unfold children, GroupNode_children, mbind, Logging_bind.
  by rewrite Hgroup.
Qed.

Lemma GroupNode_path_dangling project data parent :
  getPBXGroupByKey project (value data) = None →
  path (GroupNode project data parent) = Throw TypeError.
Proof.
  intros Hgroup. simpl. destruct (path parent) as [d|e] eqn:Hparent; simpl.
  - by rewrite Hgroup.
  - by rewrite (path_throws_TypeError _ _ Hparent).
Qed.

Lemma resolveChildren_Rejected config w node out e :
  children w node out = (Return (Thenable (Rejected e)), out) →
  resolveChildren config w node out = (Return (Thenable (Rejected e)), out).
Proof.
  intros Hchildren. unfold resolveChildren, mbind, Logging_bind.
  rewrite Hchildren. by destruct (sortAlphabetically config).
Qed.

(** X6.  A group node whose identifier the group section does not know
    cannot be expanded: [children()], and [resolveChildren] with it, is
    rejected with a TypeError before anything is logged, and [path()]
    throws a TypeError whatever the parent is. *)
Theorem GroupNode_dangling config w project data parent out :
  getPBXGroupByKey project (value data) = None →
  let this := GroupNode project data parent in
  children w this out = (Return (Thenable (Rejected TypeError)), out)
  ∧ resolveChildren config w this out = (Return (Thenable (Rejected TypeError)), out)
  ∧ path this = Throw TypeError.
Proof.
  intros Hgroup this. split; [|split].
  - by apply GroupNode_children_dangling.
  - by apply resolveChildren_Rejected, GroupNode_children_dangling.
  - by apply GroupNode_path_dangling.
Qed.

Lemma GroupNode_dangling_witness :
  let this := GroupNode Sample.project Sample.XX Sample.group in
  children Sample.world this [] = (Return (Thenable (Rejected TypeError)), [])
  ∧ path this = Throw TypeError.
Proof.
  intros this.
  destruct (GroupNode_dangling {| sortAlphabetically := false; directoriesFirst := false |}
              Sample.world Sample.project Sample.XX Sample.group [] eq_refl)
    as (Hchildren & _ & Hpath).
  by split.
Defined.

(** ** [ProjectNode.children] *)




(** X8.  A project file that parses but lacks the root object it names, or
    the main group its root object names, leaves [ProjectNode.children()]
    rejected with a TypeError. *)
Theorem ProjectNode_children_missing_objects config w rootPath file proj out :
  parseSync w (posix.join [rootPath; file; "project.pbxproj"]) = Return proj →
  pbxProjectSection proj !! rootObject proj ≫= (λ root, getPBXGroupByKey proj (mainGroup root))
    = None →
  let this := ProjectNode file (RootNode rootPath) in
  children w this out = (Return (Thenable (Rejected TypeError)), out)
  ∧ resolveChildren config w this out = (Return (Thenable (Rejected TypeError)), out).
Proof.
  intros Hparse Hmissing this.
  assert (children w this out = (Return (Thenable (Rejected TypeError)), out)) as Hrun.
  { unfold this, children, ProjectNode_children. simpl. rewrite Hparse. simpl.
    destruct (pbxProjectSection proj !! rootObject proj) as [root|]; simpl in *; [|done].
    unfold getPBXGroupByKey in *. by rewrite Hmissing. }
  split; [done|]. by apply resolveChildren_Rejected.
Qed.

Lemma ProjectNode_children_missing_objects_witness :
  children Defects.world (ProjectNode "NoRoot.xcodeproj" Defects.root) []
  = (Return (Thenable (Rejected TypeError)), [])
  ∧ children Defects.world (ProjectNode "NoMain.xcodeproj" Defects.root) []
    = (Return (Thenable (Rejected TypeError)), []).
Proof.
  pose (config := {| sortAlphabetically := false; directoriesFirst := false |}).
  split.
  - exact (proj1 (ProjectNode_children_missing_objects config Defects.world "/ws"
                    "NoRoot.xcodeproj" Defects.no_root [] eq_refl eq_refl)).
  - exact (proj1 (ProjectNode_children_missing_objects config Defects.world "/ws"
                    "NoMain.xcodeproj" Defects.no_main [] eq_refl eq_refl)).
Defined.

(** ** The nodes [GroupNode.children] builds, and their paths *)

Lemma path_FileNode_resolves project data parent ref d :
  pbxFileReferenceSection project !! value data = Some ref →
  path parent = Return d →
  path (FileNode project data parent)
  = Return (posix.join [d; replace_quotes (ref_path ref)]).
Proof. intros Href Hparent. simpl. rewrite Href. simpl. by rewrite Hparent. Qed.

Lemma path_BuildFileNode_resolves project data parent d :
  path parent = Return d →
  path (BuildFileNode project data parent)
  = match fileRef_comment data with
    | Some name => Return (posix.join [d; name])
    | None => Throw TypeError
    end.
Proof. intros Hparent. simpl. rewrite Hparent. simpl. by destruct (fileRef_comment data). Qed.

Lemma path_GroupNode_resolves project data parent group d :
  getPBXGroupByKey project (value data) = Some group →
  path parent = Return d →
  ∃ d', path (GroupNode project data parent) = Return d'.
Proof.
  intros Hgroup Hparent. simpl. rewrite Hparent. simpl. rewrite Hgroup. simpl.
  destruct (truthy _); eauto.
Qed.

(** X9.  The nodes [GroupNode.children()] builds fit [path()]: each has the
    expanded node as its parent, and when the expanded node has a path, so
    has every group node and file node among them, since the lookups
    [path()] repeats have already succeeded.  A build-file node has a path
    exactly when its record carries the [fileRef_comment] its label shows. *)
Theorem GroupNode_children_paths w project data parent d nodes out out' :
  let this := GroupNode project data parent in
  path this = Return d →
  children w this out = (Return (Thenable (Fulfilled nodes)), out') →
  Forall (λ n, parent_of n = Some this
               ∧ if is_BuildFileNode n
                 then is_Some (label n) ↔ ∃ d', path n = Return d'
                 else ∃ d', path n = Return d') nodes.
Proof.
  intros this Hpath Hchildren.
  destruct (getPBXGroupByKey project (value data)) as [group|] eqn:Hgroup.
  2: { unfold this in Hchildren.
       rewrite GroupNode_children_dangling in Hchildren by done. done. }
  unfold this, children, mbind, Logging_bind in Hchildren.
  rewrite (GroupNode_children_run _ _ _ _ _ Hgroup) in Hchildren.
  injection Hchildren as <- _. fold this.
  apply Forall_forall. intros n (child & _ & Hn)%elem_of_omap_resolved.
  destruct (resolved_inv _ _ _ _ Hn)
    as [[-> [g Hg]]|[[-> [_ [ref Href]]]|(bfile & -> & _ & _ & _)]].
  - split; [done|]. by apply (path_GroupNode_resolves _ _ _ g d).
  - split; [done|]. eexists. by apply (path_FileNode_resolves _ _ _ ref d).
  - split; [done|]. change (is_BuildFileNode _) with true. cbv iota.
    rewrite (path_BuildFileNode_resolves _ _ _ d Hpath). simpl.
    destruct (fileRef_comment bfile); split; try done; eauto; by intros [??].
Qed.

Lemma GroupNode_children_paths_witness :
  path Sample.group = Return "/repo/App"
  ∧ ∃ nodes out',
      children Sample.world Sample.group [] = (Return (Thenable (Fulfilled nodes)), out')
      ∧ Forall (λ n, parent_of n = Some Sample.group) nodes.
Proof.
  split; [reflexivity|]. eexists _, _. split; [reflexivity|].
  eapply Forall_impl.
  - exact (GroupNode_children_paths Sample.world Sample.project Sample.G1 Sample.app
             "/repo/App" _ [] _ eq_refl eq_refl).
  - by intros n [? _].
Defined.

(** ** More on the quotes [FileNode.path] drops *)

Lemma replace_quotes_from_length s :
  (String.length (replace_quotes_from false s) ≤ String.length s
   ≤ String.length (replace_quotes_from false s) + 1)%nat.
Proof.
  induction s as [|c s IH]; simpl; [lia|].
  destruct (Ascii.eqb c dquote && bool_decide (s = "")) eqn:Hlast; simpl; [|lia].
  apply andb_true_iff in Hlast as [_ ->%bool_decide_eq_true]. simpl. lia.
Qed.

(** X10.  The replacement in [FileNode.path] treats the two ends of the record
    path apart: a double quote at the start is dropped though none closes
    it, and one at the end though none opens it; quotes inside stay.  At
    most two characters go. *)
Theorem replace_quotes_unbalanced :
  (∀ t, last_char t ≠ Some dquote → replace_quotes (String dquote t) = t)
  ∧ (∀ c t, c ≠ dquote →
       replace_quotes (String c (t +:+ String dquote "")) = String c t)
  ∧ (∀ s, String.length (replace_quotes s) ≤ String.length s
          ≤ String.length (replace_quotes s) + 2)%nat.
Proof.
  split; [|split].
  - intros t Hlast. unfold replace_quotes. simpl. by apply replace_quotes_from_plain.
  - intros c t Hc. unfold replace_quotes.
    change (replace_quotes_from true (String c (t +:+ String dquote "")))
      with (if Ascii.eqb c dquote && (true || bool_decide (t +:+ String dquote "" = ""))
            then replace_quotes_from false (t +:+ String dquote "")
            else String c (replace_quotes_from false (t +:+ String dquote ""))).
    destruct (Ascii.eqb_spec c dquote) as [->|_]; [done|]. simpl.
    by rewrite replace_quotes_from_inner.
  - intros [|c s]; [simpl; lia|]. unfold replace_quotes.
    pose proof (replace_quotes_from_length s) as Hs.
    change (replace_quotes_from true (String c s))
      with (if Ascii.eqb c dquote && (true || bool_decide (s = ""))
            then replace_quotes_from false s
            else String c (replace_quotes_from false s)).
    destruct (Ascii.eqb c dquote); simpl; lia.
Qed.

Lemma replace_quotes_unbalanced_witness :
  replace_quotes (String dquote "Sources/main.swift") = "Sources/main.swift"
  ∧ replace_quotes ("main.swift" +:+ String dquote "") = "main.swift".
Proof.
  destruct replace_quotes_unbalanced as (Hopen & Hclose & _). split.
  - apply Hopen. discriminate.
  - apply (Hclose "m"%char "ain.swift"). discriminate.
Defined.

(** ** [resolveChildren] on every kind of node *)

(** X11.  A file node or build-file node returns [null] from [children()].
    [resolveChildren] passes the [null] on when sorting is off, and throws a
    TypeError when sorting is on, since [null] is no array and has no
    [then]. *)
Theorem resolveChildren_leaf config w node out :
  hasChildren node = false →
  resolveChildren config w node out
  = (if sortAlphabetically config then Throw TypeError else Return Null, out).
Proof.
  intros Hleaf. unfold resolveChildren, mbind, Logging_bind.
  destruct node; try done; simpl; by destruct (sortAlphabetically config).
Qed.

Lemma resolveChildren_leaf_witness :
  resolveChildren {| sortAlphabetically := true; directoriesFirst := false |}
    Sample.world (FileNode Sample.project Sample.F2 Sample.group) []
  = (Throw TypeError, []).
Proof.
  exact (resolveChildren_leaf {| sortAlphabetically := true; directoriesFirst := false |}
           Sample.world (FileNode Sample.project Sample.F2 Sample.group) [] eq_refl).
Defined.

(** X12.  Sorting neither adds nor loses a node and leaves the console alone:
    whatever the two flags, [resolveChildren] delivers a rearrangement of
    what [children()] delivers and writes what [children()] writes. *)
Theorem resolveChildren_rearranges config w node out :
  (resolveChildren config w node out).2 = (children w node out).2
  ∧ delivered (resolveChildren config w node out).1
    ≡ₚ delivered (children w node out).1.
Proof.
  unfold resolveChildren, mbind, Logging_bind.
  destruct (children w node out) as [[[nodes|[nodes|e]|]|e] out'];
    destruct (sortAlphabetically config); simpl; split; try done;
    apply Array_sort_Permutation.
Qed.

(** ** Sorted labels *)

Lemma sortKey_flat config n :
  directoriesFirst config = false → sortKey config n = "001-" +:+ label_text n.
Proof. intros Hflat. unfold sortKey, label_text. rewrite Hflat. by destruct n. Qed.

(** When every key has the prefix [001-], the sorted keys are the sorted
    prefixed labels. *)
Lemma sort_children_labels w config nodes :
  consistent (localeCompare w) →
  directoriesFirst config = false ∨ Forall (λ n, is_GroupNode n = false) nodes →
  StronglySorted (text_before (localeCompare w))
    ((λ n, "001-" +:+ label_text n) <$> sort_children w config nodes).
Proof.
  intros Hconsistent Hcase.
  destruct (sort_children_spec w config nodes Hconsistent) as (Hperm & Hsorted & _).
  eapply (StronglySorted_fmap_on _ _
            (λ n, directoriesFirst config = false ∨ is_GroupNode n = false));
    [|clear Hsorted|exact Hsorted].
  - intros a b Ha Hb Hab. unfold key_before in Hab. unfold text_before.
    assert (∀ n, directoriesFirst config = false ∨ is_GroupNode n = false →
                 sortKey config n = "001-" +:+ label_text n) as Hkey.
    { intros n [?|?]; [by apply sortKey_flat | by apply sortKey_other]. }
    by rewrite <-!Hkey.
  - destruct Hcase as [Hflat|Hnodes].
    + apply Forall_forall. intros n _. by left.
    + rewrite Hperm. eapply Forall_impl; [exact Hnodes|]. intros n Hn. by right.
Qed.

Lemma StronglySorted_labels compare (nodes : list XcodeNode) :
  ignores_prefix compare "001-" →
  StronglySorted (text_before compare) ((λ n, "001-" +:+ label_text n) <$> nodes) →
  StronglySorted (text_before compare) (label_text <$> nodes).
Proof.
  intros Hprefix. rewrite (list_fmap_compose label_text (λ l, "001-" +:+ l)).
  generalize (label_text <$> nodes). intros labels Hsorted.
  induction labels as [|l labels IH]; [constructor|].
  rewrite fmap_cons in Hsorted. inversion Hsorted as [|? ? Hrest Hl]; subst.
  constructor; [by apply IH|].
  rewrite Forall_fmap in Hl. eapply Forall_impl; [exact Hl|].
  intros l' Hll'. by apply Hprefix.
Qed.

(** X13.  With [sortAlphabetically] on and a consistent [localeCompare], the
    children of the root come out in the order [localeCompare] gives their
    sort keys, [001-] followed by the bundle name; and with
    [directoriesFirst] off so do the children of every node, groups and
    files mixed under the one prefix.  When [localeCompare] orders strings
    with that prefix as it orders the rest, this is the order it gives the
    labels. *)
Theorem resolveChildren_sorted_labels config w node out :
  consistent (localeCompare w) →
  sortAlphabetically config = true →
  directoriesFirst config = false ∨ is_RootNode node = true →
  let sorted := delivered (resolveChildren config w node out).1 in
  StronglySorted (text_before (localeCompare w))
    ((λ n, "001-" +:+ label_text n) <$> sorted)
  ∧ (ignores_prefix (localeCompare w) "001-" →
     StronglySorted (text_before (localeCompare w)) (label_text <$> sorted)).
Proof.
  intros Hconsistent Hsort Hcase sorted.
  assert (StronglySorted (text_before (localeCompare w))
            ((λ n, "001-" +:+ label_text n) <$> sorted)) as Hkeys.
  { unfold sorted, resolveChildren, mbind, Logging_bind. rewrite Hsort.
    destruct Hcase as [Hflat|Hroot].
    - destruct (children w node out) as [[[nodes|[nodes|e]|]|e] out']; simpl;
        try constructor; apply sort_children_labels; by try left.
    - destruct node as [rootPath| | | |]; try done. simpl.
      unfold RootNode_children, readdirSync.
      destruct (fs_dirs w !! rootPath) as [entries|]; simpl; [|constructor].
      apply sort_children_labels; [done|]. right.
      apply Forall_fmap, Forall_forall. by intros file _. }
  split; [done|]. intros Hprefix. by apply StronglySorted_labels.
Qed.

Lemma resolveChildren_sorted_labels_witness :
  consistent (localeCompare Sample.world)
  ∧ delivered (resolveChildren {| sortAlphabetically := true; directoriesFirst := true |}
                 Sample.world Sample.root []).1
    = [ProjectNode "App.xcodeproj" Sample.root; ProjectNode "Lib.xcodeproj" Sample.root]
  ∧ StronglySorted (text_before collate) ["App.xcodeproj"; "Lib.xcodeproj"].
Proof.
  split; [exact collate_consistent|]. split; [reflexivity|].
  exact (proj2 (resolveChildren_sorted_labels
                  {| sortAlphabetically := true; directoriesFirst := true |}
                  Sample.world Sample.root [] collate_consistent eq_refl
                  (or_intror eq_refl))
               (collate_ignores_prefix "001-")).
Defined.

(** X14.  Sorting children that are already sorted changes nothing, for any
    consistent [localeCompare]. *)
Theorem sort_children_idempotent w config nodes :
  consistent (localeCompare w) →
  sort_children w config (sort_children w config nodes) = sort_children w config nodes.
Proof.
  intros Hconsistent.
  destruct (sort_children_spec w config nodes Hconsistent) as (_ & Hsorted & _).
  destruct Hconsistent as [Htotal Htrans].
  symmetry. unfold sort_children at 2.
  apply (Array_sort_unique
           (λ a b, localeCompare w (sortKey config a) (sortKey config b))).
  - intros a b. apply Htotal.
  - intros a b c. apply Htrans.
  - exact Hsorted.
  - done.
  - done.
Qed.

Lemma sort_children_idempotent_witness :
  let config := {| sortAlphabetically := true; directoriesFirst := true |} in
  let nodes := [ FileNode Sample.project Sample.F2 Sample.group;
                 GroupNode Sample.project Sample.G2 Sample.group;
                 GroupNode Sample.project Sample.G3 Sample.group ] in
  consistent (localeCompare Sample.world)
  ∧ sort_children Sample.world config (sort_children Sample.world config nodes)
    = sort_children Sample.world config nodes.
Proof.
  intros config nodes. split; [exact collate_consistent|].
  exact (sort_children_idempotent Sample.world config nodes collate_consistent).
Defined.

(** ** The two-pass revision against the three-way one *)


(** X16.  The revisions part on an identifier that names both a group and a
    file reference: the two-pass [children()] shows it twice, as a group
    node and as a file node; the three-way one shows the group node only. *)
Theorem TwoPass_children_shows_twice project data parent group child :
  getPBXGroupByKey project (value data) = Some group →
  child ∈ group_children group →
  is_Some (getPBXGroupByKey project (value child)) →
  is_Some (pbxFileReferenceSection project !! value child) →
  let this := GroupNode project data parent in
  ∃ nodes,
    TwoPass.GroupNode_children this project data = Fulfilled nodes
    ∧ GroupNode project child this ∈ nodes
    ∧ FileNode project child this ∈ nodes
    ∧ GroupNode project child this ∈ omap (resolved this project) (group_children group)
    ∧ FileNode project child this ∉ omap (resolved this project) (group_children group).
Proof.
  intros Hgroup Hchild Hg Hf this. unfold TwoPass.GroupNode_children.
  rewrite Hgroup. simpl. eexists. split; [reflexivity|].
  split; [|split; [|split]].
  - apply elem_of_app. left. apply (list_elem_of_fmap_2 (λ c, GroupNode project c this)).
    apply list_elem_of_In, filter_In. split; [by apply list_elem_of_In|].
    by apply bool_decide_eq_true.
  - apply elem_of_app. right. apply (list_elem_of_fmap_2 (λ c, FileNode project c this)).
    apply list_elem_of_In, filter_In. split; [by apply list_elem_of_In|].
    by apply bool_decide_eq_true.
  - apply list_elem_of_omap. exists child. split; [done|].
    by apply resolved_group.
  - intros (child' & _ & Hres)%elem_of_omap_resolved.
    destruct (resolved_inv _ _ _ _ Hres) as [[[=] _]|[[[= <-] [Hnone _]]|(b & [=] & _)]].
    rewrite Hnone in Hg. by destruct Hg.
Qed.

Lemma TwoPass_children_shows_twice_witness :
  let this := GroupNode Defects.twice Defects.G0 Defects.root in
  ∃ nodes,
    TwoPass.GroupNode_children this Defects.twice Defects.G0 = Fulfilled nodes
    ∧ GroupNode Defects.twice Defects.D1 this ∈ nodes
    ∧ FileNode Defects.twice Defects.D1 this ∈ nodes
    ∧ omap (resolved this Defects.twice) [Defects.D1]
      = [GroupNode Defects.twice Defects.D1 this].
Proof.
  intros this.
  destruct (TwoPass_children_shows_twice Defects.twice Defects.G0 Defects.root
              {| group_children := [Defects.D1]; group_path := None |} Defects.D1
              eq_refl ltac:(by left) ltac:(by eexists) ltac:(by eexists))
    as (nodes & Hrun & Hgroup & Hfile & _).
  by exists nodes.
Defined.

(** ** What the provider tells the host *)

(** X17.  [getHasChildren] and [children()] agree: the nodes reported as
    having no children are exactly those whose [children()] is [null], so a
    host that expands only nodes with children never meets a [null]. *)
Theorem getHasChildren_children w node out :
  getHasChildren node = false ↔ (children w node out).1 = Return Null.
Proof.
  unfold getHasChildren, children, mbind, mret, Logging_bind, Logging_ret.
  destruct node as [rootPath| | | |]; simpl; split; try done.
  - by destruct (RootNode_children w _ rootPath).
  - by destruct (GroupNode_children _ _ _ out).
Qed.

(** The only nodes with a click command are the file nodes, and the command
    they name is one [activate] registers. *)
Lemma getClickCommand_registered rootPath node :
  match getClickCommand node with
  | Some command => is_FileNode node = true ∧ command ∈ commands (activate rootPath)
  | None => is_FileNode node = false
  end.
Proof. destruct node; simpl; try done. split; [done|]. by left. Qed.

(** ** The tree the host walks *)

Lemma child_of_well_formed w n c :
  well_formed n = true → child_of w n c →
  well_formed c = true ∧ root_path c = root_path n ∧ parent_of c = Some n.
Proof.
  intros Hwf. unfold child_of.
  destruct n as [rootPath|file parent|project data parent
                 |project data parent|project data parent]; simpl.
  - unfold RootNode_children. destruct (readdirSync w rootPath); simpl.
    + by intros (file & -> & _)%list_elem_of_fmap.
    + by intros ?%elem_of_nil.
  - unfold ProjectNode_children.
    destruct parent as [rootPath| | | |]; simpl in *; try done.
    destruct (parseSync w _) as [proj|]; simpl; [|by intros ?%elem_of_nil].
    destruct (pbxProjectSection proj !! rootObject proj) as [root|]; simpl;
      [|by intros ?%elem_of_nil].
    destruct (getPBXGroupByKey proj (mainGroup root)) as [group|]; simpl;
      [|by intros ?%elem_of_nil].
    by intros (child & -> & _)%list_elem_of_fmap.
  - unfold mbind, Logging_bind.
    destruct (getPBXGroupByKey project (value data)) as [group|] eqn:Hgroup.
    + rewrite (GroupNode_children_run _ _ _ _ _ Hgroup). simpl.
      intros (child & _ & Hres)%elem_of_omap_resolved.
      destruct (resolved_inv _ _ _ _ Hres)
        as [[-> _]|[[-> _]|(bfile & -> & _)]]; simpl; by rewrite ?Hwf.
    + unfold GroupNode_children. rewrite Hgroup. simpl. by intros ?%elem_of_nil.
  - by intros ?%elem_of_nil.
  - by intros ?%elem_of_nil.
Qed.

(** X18.  Every node the host can reach from the root node by expanding has
    the parent links the constructors are typed for (a project under the
    root, a group under a project or group, a file or build file under a
    group) and sits under the directory the provider was created with. *)
Theorem reachable_well_formed w rootPath n :
  rtc (child_of w) (provideRootNode rootPath) n →
  well_formed n = true ∧ root_path n = rootPath.
Proof.
  revert n.
  apply (rtc_ind_r (λ n, well_formed n = true ∧ root_path n = rootPath)); [done|].
  intros m n _ Hstep [Hwf Hroot].
  destruct (child_of_well_formed w m n Hwf Hstep) as (? & ? & ?).
  split; [done|congruence].
Qed.

Lemma reachable_well_formed_witness :
  rtc (child_of Sample.world) (provideRootNode "/repo")
      (FileNode Sample.project Sample.F2 Sample.group)
  ∧ root_path (FileNode Sample.project Sample.F2 Sample.group) = "/repo".
Proof.
  assert (rtc (child_of Sample.world) (provideRootNode "/repo")
              (FileNode Sample.project Sample.F2 Sample.group)) as Hreach.
  { apply (rtc_l _ _ Sample.app); [by left|].
    apply (rtc_l _ _ Sample.group); [by left|].
    apply rtc_once. by left. }
  split; [exact Hreach|].
  exact (proj2 (reachable_well_formed Sample.world "/repo" _ Hreach)).
Defined.

Lemma child_of_parent_resolves w m n :
  (∀ p, parent_of m = Some p → ∃ d, path p = Return d) →
  child_of w m n → ∃ d, path m = Return d.
Proof.
  intros Hparent. unfold child_of.
  destruct m as [rootPath|file parent|project data parent
                 |project data parent|project data parent]; simpl.
  - eauto.
  - intros _. destruct (Hparent parent eq_refl) as [d ->]. simpl. eauto.
  - unfold mbind at 1, Logging_bind.
    destruct (getPBXGroupByKey project (value data)) as [group|] eqn:Hgroup.
    + intros _. destruct (Hparent parent eq_refl) as [d ->]. simpl.
      destruct (truthy _); eauto.
    + unfold GroupNode_children. rewrite Hgroup. simpl. by intros ?%elem_of_nil.
  - by intros ?%elem_of_nil.
  - by intros ?%elem_of_nil.
Qed.

Lemma reachable_parent_resolves w rootPath n :
  rtc (child_of w) (provideRootNode rootPath) n →
  well_formed n = true ∧ ∀ p, parent_of n = Some p → ∃ d, path p = Return d.
Proof.
  revert n.
  apply (rtc_ind_r (λ n, well_formed n = true
                         ∧ ∀ p, parent_of n = Some p → ∃ d, path p = Return d)).
  { split; [done|]. by intros p [=]. }
  intros m n _ Hstep [Hwf Hparent].
  destruct (child_of_well_formed w m n Hwf Hstep) as (Hwfn & _ & Hm).
  split; [done|]. intros p Hp. rewrite Hm in Hp. injection Hp as <-.
  by apply (child_of_parent_resolves w m n).
Qed.

Lemma child_of_FileNode w m project data parent :
  child_of w m (FileNode project data parent) →
  is_Some (pbxFileReferenceSection project !! value data).
Proof.
  unfold child_of.
  destruct m as [rootPath|file p|proj dat p|proj dat p|proj dat p]; simpl.
  - unfold RootNode_children. destruct (readdirSync w rootPath); simpl.
    + by intros (file & [=] & _)%list_elem_of_fmap.
    + by intros ?%elem_of_nil.
  - unfold ProjectNode_children.
    destruct (defined (rootPath_of p)) as [rootPath|]; simpl; [|by intros ?%elem_of_nil].
    destruct (parseSync w _) as [pr|]; simpl; [|by intros ?%elem_of_nil].
    destruct (pbxProjectSection pr !! rootObject pr) as [root|]; simpl;
      [|by intros ?%elem_of_nil].
    destruct (getPBXGroupByKey pr (mainGroup root)) as [group|]; simpl;
      [|by intros ?%elem_of_nil].
    by intros (child & [=] & _)%list_elem_of_fmap.
  - unfold mbind, Logging_bind.
    destruct (getPBXGroupByKey proj (value dat)) as [group|] eqn:Hgroup.
    + rewrite (GroupNode_children_run _ _ _ _ _ Hgroup). simpl.
      intros (child & _ & Hres)%elem_of_omap_resolved.
      destruct (resolved_inv _ _ _ _ Hres)
        as [[[=] _]|[[[= -> -> ->] [_ Href]]|(bfile & [=] & _)]].
      exact Href.
    + unfold GroupNode_children. rewrite Hgroup. simpl. by intros ?%elem_of_nil.
  - by intros ?%elem_of_nil.
  - by intros ?%elem_of_nil.
Qed.

(** X19.  Every file node the host can reach from the root node has a path:
    [path()] does not throw on it, and the click command's callback hands
    [vscode.Uri.parse] the text [file://] followed by that path. *)
Theorem reachable_FileNode_opens w rootPath n :
  rtc (child_of w) (provideRootNode rootPath) n →
  is_FileNode n = true →
  ∃ d, path n = Return d ∧ openXcodeFileNode n = Return ("file://" +:+ d).
Proof.
  intros Hreach Hfile.
  assert (∃ d, path n = Return d) as [d Hd].
  { destruct (reachable_parent_resolves w rootPath n Hreach) as [_ Hparent].
    destruct n as [| | | |project data parent]; try done.
    destruct (Hparent parent eq_refl) as [dp Hdp].
    apply rtc_inv_r in Hreach as [[=]|(m & _ & Hstep)].
    destruct (child_of_FileNode w m project data parent Hstep) as [ref Href].
    eexists. by apply (path_FileNode_resolves project data parent ref dp). }
  exists d. split; [done|]. unfold openXcodeFileNode. by rewrite Hd.
Qed.

Lemma reachable_FileNode_opens_witness :
  ∃ d, path (FileNode Sample.project Sample.F2 Sample.group) = Return d
       ∧ openXcodeFileNode (FileNode Sample.project Sample.F2 Sample.group)
         = Return ("file://" +:+ d).
Proof.
  apply (reachable_FileNode_opens Sample.world "/repo"); [|reflexivity].
  apply (rtc_l _ _ Sample.app); [by left|].
  apply (rtc_l _ _ Sample.group); [by left|].
  apply rtc_once. by left.
Defined.

(** With [directoriesFirst] off the sample collation mixes groups and files
    by label. *)
Example resolveChildren_sample_mixed :
  label_text
    <$> delivered (resolveChildren {| sortAlphabetically := true; directoriesFirst := false |}
                     Sample.world Sample.group []).1
  = ["alpha"; "lib.a"; "main.swift"; "Zeta"].
Proof. reflexivity. Qed.
